(** * Usd_PrimTypeInfoCache: the prim type info interning cache

    A shallow embedding of [pxr/usd/usd/primTypeInfoCache.h] and the
    properties its specification states about it.

    - [TfToken] is modelled by its string: two tokens are equal exactly when
      their strings are, and [IsEmpty] holds exactly for the empty string.
    - Pointers are optional addresses; [nullptr] is [None].
    - The free store and the cache object are one explicit [State] threaded
      through a small monad whose outcomes are a returned value, a thrown
      [std::bad_alloc], or undefined behaviour (deleting a dead object).
      The free store serves the descriptors, the nodes of the map and the
      buffer of the string the key is built in.
    - Concurrent callers are modelled by an interleaving step relation over
      the same primitive operations, with the element locks that the
      accessors of [tbb::concurrent_hash_map] hold. *)

From Stdlib Require Import Ascii.
From stdpp Require Import base option list strings gmap fin_maps sets.

Set Default Proof Using "Type".

(** Let [simpl] unfold string concatenation on a constructor. *)
#[local] Arguments String.append !_ _ : simpl nomatch.

(** ** Tokens *)

Abbreviation TfToken := string (only parsing).
Abbreviation TfTokenVector := (list string) (only parsing).

(** [TfToken::IsEmpty] *)
Definition IsEmpty (t : TfToken) : bool :=
  match t with EmptyString => true | String _ _ => false end.

(** [TfToken::size] *)
Definition size_of (t : TfToken) : nat := String.length t.

(** The separator the key builder writes between names. *)
Definition sep : ascii := ","%char.

(** Occurrence of a character in a token. *)
Fixpoint occurs (c : ascii) (t : TfToken) : bool :=
  match t with
  | EmptyString => false
  | String c' t' => if decide (c = c') then true else occurs c t'
  end.

(** An identifier is well formed when the separator does not occur in it. *)
Definition well_formed (t : TfToken) : Prop := occurs sep t = false.

(** ** Key builder *)

Module KeyBuilder.

(** The capacity computed for [fullTypeString.reserve]: one per applied
    schema, the size of the prim type, and the size of every schema. *)
Definition tokenSize (primType : TfToken)
    (appliedSchemaTypes : TfTokenVector) : nat :=
  fold_left (λ tokenSize schemaType, tokenSize + size_of schemaType)
    appliedSchemaTypes
    (length appliedSchemaTypes + size_of primType).

(** The appends of [_CreatePrimTypeInfoKey]: [fullTypeString] after
    [fullTypeString += primType] and the loop, the two appends of the loop
    body kept as they are written. *)
Definition appended (primType : TfToken)
    (appliedSchemaTypes : TfTokenVector) : string :=
  let fullTypeString := "" in
  let fullTypeString := fullTypeString +:+ primType in
  let fullTypeString :=
    fold_left
      (λ fullTypeString schemaType,
         (fullTypeString +:+ ",") +:+ schemaType)
      appliedSchemaTypes fullTypeString in
  fullTypeString.

(** The string of the token that [_CreatePrimTypeInfoKey] returns when it
    returns: the prim type itself without applied schemas, otherwise
    [TfToken(fullTypeString)].  The call itself, which reserves the buffer
    of [fullTypeString] and can throw, is [_CreatePrimTypeInfoKey] below. *)
Definition key_string (primType : TfToken)
    (appliedSchemaTypes : TfTokenVector) : TfToken :=
  match appliedSchemaTypes with
  | [] => primType
  | _ => appended primType appliedSchemaTypes
  end.

(** The key as the specification words it: the base type alone when there
    are no traits, otherwise the base type followed by every trait in
    order, each preceded by one separator. *)
Definition separated (traits : TfTokenVector) : string :=
  foldr (λ trait rest, String sep (trait +:+ rest)) "" traits.

Definition BuildKey (baseType : TfToken) (traits : TfTokenVector) : TfToken :=
  match traits with
  | [] => baseType
  | _ => baseType +:+ separated traits
  end.

End KeyBuilder.
Export KeyBuilder.

(** ** The cached value and the store *)

(** Modelled from the spec: the layout and the constructor of
    [Usd_PrimTypeInfo] (primTypeInfo.h), a value that holds the base-type
    identifier and the ordered trait-name sequence it was built from. *)
Record Usd_PrimTypeInfo := mkPrimTypeInfo {
  primTypeName : string;
  appliedAPISchemas : list string;
}.

(** Modelled from the spec: the value behind
    [Usd_PrimTypeInfo::GetEmptyPrimType], no base type and no traits. *)
Definition EmptyPrimType : Usd_PrimTypeInfo := mkPrimTypeInfo "" [].

(** The key under which a descriptor is filed. *)
Definition key_of (d : Usd_PrimTypeInfo) : string :=
  key_string (primTypeName d) (appliedAPISchemas d).

(** A [const Usd_PrimTypeInfo *], and a [std::unique_ptr<Usd_PrimTypeInfo>]:
    an address or null. *)
Abbreviation ptr := (option positive) (only parsing).
Abbreviation nullptr := (@None positive) (only parsing).

(** The free store together with the two members of the cache object.
    - [objects]: the live [Usd_PrimTypeInfo] objects by address;
    - [avail]: how many more allocations the free store can serve;
    - [_hashMap]: the [tbb::concurrent_hash_map] of [_primTypeInfoMap];
    - [_emptyPrimTypeInfo]: the pointer set by the constructor. *)
Record State := mkState {
  objects : gmap positive Usd_PrimTypeInfo;
  avail : nat;
  _hashMap : gmap string (option positive);
  _emptyPrimTypeInfo : option positive;
}.

(** ** Outcomes and the monad *)

Inductive outcome (A : Type) : Type :=
  | Ret (a : A)           (* normal return *)
  | bad_alloc             (* std::bad_alloc propagates *)
  | undefined.            (* undefined behaviour *)
Arguments Ret {A} a.
Arguments bad_alloc {A}.
Arguments undefined {A}.

Definition M (A : Type) : Type := State → outcome A * State.

Definition ret {A} (a : A) : M A := λ σ, (Ret a, σ).

Definition bind {A B} (m : M A) (f : A → M B) : M B := λ σ,
  match m σ with
  | (Ret a, σ') => f a σ'
  | (bad_alloc, σ') => (bad_alloc, σ')
  | (undefined, σ') => (undefined, σ')
  end.

Notation "'let*' x ':=' m 'in' k" := (bind m (λ x, k))
  (at level 10, x pattern, m at level 100, k at level 200,
   format "'[v' 'let*'  x  ':='  m  'in'  '/' k ']'").

(** Stack unwinding: when [m] throws, [cleanup] (the destructors of the
    locals in scope) runs before the exception leaves. *)
Definition on_unwind {A} (m : M A) (cleanup : M unit) : M A := λ σ,
  match m σ with
  | (bad_alloc, σ') =>
      match cleanup σ' with
      | (Ret _, σ'') => (bad_alloc, σ'')
      | (bad_alloc, σ'') => (bad_alloc, σ'')
      | (undefined, σ'') => (undefined, σ'')
      end
  | r => r
  end.

(** ** The free store *)

Module Store.

(** [new Usd_PrimTypeInfo(primType, appliedSchemas)]: throws when the free
    store is exhausted, otherwise constructs the object at an address that
    holds no live object. *)
Definition new_Usd_PrimTypeInfo (primType : string)
    (appliedSchemas : list string) : M positive := λ σ,
  match avail σ with
  | O => (bad_alloc, σ)
  | S n =>
      let a := fresh (dom (objects σ)) in
      (Ret a,
       mkState (<[a := mkPrimTypeInfo primType appliedSchemas]> (objects σ))
               n (_hashMap σ) (_emptyPrimTypeInfo σ))
  end.

(** [delete p] for a non-null [p]: destroys the object and gives its
    storage back; deleting what is not live is undefined. *)
Definition delete_Usd_PrimTypeInfo (a : positive) : M unit := λ σ,
  match objects σ !! a with
  | Some _ =>
      (Ret (),
       mkState (delete a (objects σ)) (S (avail σ))
               (_hashMap σ) (_emptyPrimTypeInfo σ))
  | None => (undefined, σ)
  end.

(** The capacity of the buffer inside a [std::string], up to which
    [reserve] does not allocate.  It is the library's choice (15 with
    libstdc++).  The theorems below hold whatever its value is; the
    examples use keys that are longer than the buffer of any library. *)
Definition small_string_capacity : nat := 15.

(** [fullTypeString.reserve(tokenSize)] on the empty local string: no
    allocation within the capacity of the string itself; beyond it a
    buffer is allocated, which throws when the free store is exhausted.
    The result tells whether the string owns a buffer. *)
Definition string_reserve (tokenSize : nat) : M bool := λ σ,
  if decide (tokenSize ≤ small_string_capacity) then (Ret false, σ)
  else
    match avail σ with
    | O => (bad_alloc, σ)
    | S n =>
        (Ret true,
         mkState (objects σ) n (_hashMap σ) (_emptyPrimTypeInfo σ))
    end.

(** The destructor of the local string gives its buffer back. *)
Definition string_dtor (owns_buffer : bool) : M unit := λ σ,
  if owns_buffer
  then (Ret (),
        mkState (objects σ) (S (avail σ)) (_hashMap σ) (_emptyPrimTypeInfo σ))
  else (Ret (), σ).

(** The destructor of a [std::unique_ptr]. *)
Definition unique_ptr_dtor (p : ptr) : M unit :=
  match p with
  | Some a => delete_Usd_PrimTypeInfo a
  | None => ret ()
  end.

End Store.
Export Store.

(** ** The hash map *)

Module Tbb.

(** [_hashMap.find(accessor, key)]: the element when there is one. *)
Definition find (key : string) : M (option (option positive)) := λ σ,
  (Ret (_hashMap σ !! key), σ).

(** [_hashMap.insert(accessor, key)]: [false] when the key is there;
    otherwise a node with a default-constructed (null) value is allocated
    and linked in, and the result is [true]. *)
Definition insert (key : string) : M bool := λ σ,
  match _hashMap σ !! key with
  | Some _ => (Ret false, σ)
  | None =>
      match avail σ with
      | O => (bad_alloc, σ)
      | S n =>
          (Ret true,
           mkState (objects σ) n
                   (<[key := nullptr]> (_hashMap σ)) (_emptyPrimTypeInfo σ))
      end
  end.

(** [accessor->second = std::move(valuePtr)] *)
Definition assign (key : string) (valuePtr : ptr) : M unit := λ σ,
  (Ret (),
   mkState (objects σ) (avail σ)
           (<[key := valuePtr]> (_hashMap σ)) (_emptyPrimTypeInfo σ)).

(** [accessor->second.get()] *)
Definition get (key : string) : M ptr := λ σ,
  (Ret (default nullptr (_hashMap σ !! key)), σ).

End Tbb.

(** ** The cache *)

Module Usd_PrimTypeInfoCache.

(** Modelled from the spec: the address of the static object behind
    [Usd_PrimTypeInfo::GetEmptyPrimType]. *)
Definition GetEmptyPrimType : positive := 1%positive.

(** The constructor, in a process whose free store can serve [n]
    allocations: the map is empty and [_emptyPrimTypeInfo] points to the
    static empty prim type. *)
Definition Usd_PrimTypeInfoCache (n : nat) : State :=
  mkState {[ GetEmptyPrimType := EmptyPrimType ]} n ∅
          (Some GetEmptyPrimType).

(** The wrapper around the hash map.  Tokens are compared by [_TbbHashFunc]
    with [==], which is equality of their strings; its hash only places the
    elements. *)
Module _ThreadSafeHashMapImpl.

(** [_ThreadSafeHashMapImpl::Find] *)
Definition Find (key : string) : M ptr :=
  let* found := Tbb.find key in
  match found with
  | Some second => ret second
  | None => ret nullptr
  end.

(** [_ThreadSafeHashMapImpl::Insert].  [valuePtr] is the by-value
    parameter; it is destroyed when the call ends, also by unwinding. *)
Definition Insert (key : string) (valuePtr : ptr) : M ptr :=
  let* inserted := on_unwind (Tbb.insert key) (unique_ptr_dtor valuePtr) in
  let* valuePtr :=
    if inserted : bool
    then (let* _ := Tbb.assign key valuePtr in ret nullptr)
    else ret valuePtr in
  let* result := Tbb.get key in
  let* _ := unique_ptr_dtor valuePtr in
  ret result.

End _ThreadSafeHashMapImpl.
Export _ThreadSafeHashMapImpl.

(** [GetEmptyPrimTypeInfo] *)
Definition GetEmptyPrimTypeInfo : M ptr := λ σ,
  (Ret (_emptyPrimTypeInfo σ), σ).

(** [_CreatePrimTypeInfoKey].  Without applied schemas the prim type token
    is returned as it is.  Otherwise the local [fullTypeString] reserves
    [tokenSize] characters, which can throw, the appends fill it, the token
    is made from it and the string is destroyed.  Making the token goes
    through the token registry of [TfToken], which is not part of this
    file; the token is modelled by its string. *)
Definition _CreatePrimTypeInfoKey (primType : string)
    (appliedSchemaTypes : list string) : M string :=
  match appliedSchemaTypes with
  | [] => ret primType
  | _ =>
      let tokenSize := tokenSize primType appliedSchemaTypes in
      let* owns_buffer := string_reserve tokenSize in
      let fullTypeString := appended primType appliedSchemaTypes in
      let key := fullTypeString in
      let* _ := string_dtor owns_buffer in
      ret key
  end.

(** [FindOrCreatePrimTypeInfo] *)
Definition FindOrCreatePrimTypeInfo (primType : string)
    (appliedSchemas : list string) : M ptr :=
  let* key := _CreatePrimTypeInfoKey primType appliedSchemas in
  if IsEmpty key then GetEmptyPrimTypeInfo
  else
    let* primTypeInfo := Find key in
    match primTypeInfo with
    | Some _ => ret primTypeInfo
    | None =>
        let* newPrimTypeInfo :=
          new_Usd_PrimTypeInfo primType appliedSchemas in
        Insert key (Some newPrimTypeInfo)
    end.

(** Whether building the key of a request needs a buffer from the free
    store. *)
Definition needs_buffer (primType : string) (appliedSchemas : list string)
    : bool :=
  match appliedSchemas with
  | [] => false
  | _ =>
      bool_decide
        (¬ tokenSize primType appliedSchemas ≤ small_string_capacity)
  end.

End Usd_PrimTypeInfoCache.
Export Usd_PrimTypeInfoCache.

(** ** Invariants of the cache *)

(** The state of the cache between calls. *)
Record wf (σ : State) : Prop := mk_wf {
  (** the empty prim type info is a live object *)
  wf_empty : ∃ e,
    _emptyPrimTypeInfo σ = Some e ∧ objects σ !! e = Some EmptyPrimType;
  (** every entry has a non-empty key and owns a live object filed under
      its own key, which is not the empty prim type info *)
  wf_entry : ∀ k v, _hashMap σ !! k = Some v →
    IsEmpty k = false ∧
    ∃ a d, v = Some a ∧ objects σ !! a = Some d ∧ key_of d = k ∧
           _emptyPrimTypeInfo σ ≠ Some a;
  (** no object is owned by two entries *)
  wf_owner : ∀ k1 k2 a,
    _hashMap σ !! k1 = Some (Some a) → _hashMap σ !! k2 = Some (Some a) →
    k1 = k2;
  (** every live object is the empty prim type info or owned by an entry *)
  wf_no_leak : ∀ a, is_Some (objects σ !! a) →
    _emptyPrimTypeInfo σ = Some a ∨ ∃ k, _hashMap σ !! k = Some (Some a);
}.

(** The identifiers of a request are well formed. *)
Definition well_formed_request (p : string) (s : list string) : Prop :=
  well_formed p ∧ Forall well_formed s.

(** Every entry was built from well-formed identifiers. *)
Definition faithful (σ : State) : Prop :=
  ∀ k a d, _hashMap σ !! k = Some (Some a) → objects σ !! a = Some d →
    well_formed_request (primTypeName d) (appliedAPISchemas d).

(** The rest of the process allocates and frees too: between two calls the
    room left in the free store can be anything. *)
Definition with_avail (n : nat) (σ : State) : State :=
  mkState (objects σ) n (_hashMap σ) (_emptyPrimTypeInfo σ).

(** The states a cache goes through: constructed, then called any number of
    times with requests that satisfy [P]. *)
Inductive reachable_by (P : string → list string → Prop) : State → Prop :=
  | reach_ctor n : reachable_by P (Usd_PrimTypeInfoCache n)
  | reach_call σ p s :
      reachable_by P σ → P p s →
      reachable_by P (FindOrCreatePrimTypeInfo p s σ).2
  | reach_avail σ n :
      reachable_by P σ → reachable_by P (with_avail n σ).

Definition any_request (p : string) (s : list string) : Prop := True.

Abbreviation reachable := (reachable_by any_request).

(** The state after a creation. *)
Definition created (p : string) (s : list string) (n : nat) (σ : State) : State :=
  let a := fresh (dom (objects σ)) in
  mkState (<[a := mkPrimTypeInfo p s]> (objects σ)) n
          (<[key_string p s := Some a]> (_hashMap σ))
          (_emptyPrimTypeInfo σ).

(** The five ways a call on a well-formed state can go. *)
Inductive call_case (p : string) (s : list string) (σ : State) : Prop :=
  | case_empty :
      IsEmpty (key_string p s) = true →
      FindOrCreatePrimTypeInfo p s σ = (Ret (_emptyPrimTypeInfo σ), σ) →
      call_case p s σ
  | case_hit a :
      IsEmpty (key_string p s) = false →
      _hashMap σ !! key_string p s = Some (Some a) →
      FindOrCreatePrimTypeInfo p s σ = (Ret (Some a), σ) →
      call_case p s σ
  | case_bad_alloc :
      IsEmpty (key_string p s) = false →
      _hashMap σ !! key_string p s = None →
      avail σ < 2 →
      FindOrCreatePrimTypeInfo p s σ = (bad_alloc, σ) →
      call_case p s σ
  | case_key_bad_alloc :
      needs_buffer p s = true →
      avail σ = 0 →
      FindOrCreatePrimTypeInfo p s σ = (bad_alloc, σ) →
      call_case p s σ
  | case_created n :
      IsEmpty (key_string p s) = false →
      _hashMap σ !! key_string p s = None →
      avail σ = S (S n) →
      FindOrCreatePrimTypeInfo p s σ =
        (Ret (Some (fresh (dom (objects σ)))), created p s n σ) →
      call_case p s σ.

(** ** What later calls leave in place *)

(** The state some calls later, the rest of the process allocating and
    freeing in between. *)
Inductive evolves : State → State → Prop :=
  | evolves_refl σ : evolves σ σ
  | evolves_call σ σ' p s :
      evolves σ σ' → evolves σ (FindOrCreatePrimTypeInfo p s σ').2
  | evolves_avail σ σ' n :
      evolves σ σ' → evolves σ (with_avail n σ').

(** Entries, objects and the empty pointer of [σ] are those of [σ']. *)
Record preserved (σ σ' : State) : Prop := mk_preserved {
  kept_entries : ∀ k v, _hashMap σ !! k = Some v → _hashMap σ' !! k = Some v;
  kept_objects : ∀ a d, objects σ !! a = Some d → objects σ' !! a = Some d;
  kept_empty : _emptyPrimTypeInfo σ' = _emptyPrimTypeInfo σ;
}.

(** ** Concurrent callers *)

Module Concurrent.

(** Where a thread stands in [FindOrCreatePrimTypeInfo]. *)
Inductive pc : Type :=
  | Start
      (* about to derive the key and look it up *)
  | Missed
      (* [Find] returned null; about to construct the descriptor *)
  | Built (newPrimTypeInfo : positive)
      (* the descriptor is built; about to call [Insert] *)
  | Locked (inserted : bool) (valuePtr : option positive)
      (* in [Insert] after [_hashMap.insert]: the accessor holds the
         element of the key *)
  | Returning (valuePtr : option positive) (result : option positive)
      (* the accessor is released; the parameter is to be destroyed *)
  | Unwinding (valuePtr : option positive)
      (* [std::bad_alloc] in flight; the parameter is to be destroyed *)
  | Done (result : option positive)
      (* returned *)
  | Thrown
      (* [std::bad_alloc] left the call *)
  | Crashed.
      (* undefined behaviour *)

(** A calling thread: its request and where it stands. *)
Record Thread := mkThread {
  primType : string;
  appliedSchemas : list string;
  at_pc : pc;
}.

Definition key (t : Thread) : string :=
  key_string (primType t) (appliedSchemas t).

Definition goto (t : Thread) (l : pc) : Thread :=
  mkThread (primType t) (appliedSchemas t) l.

(** The threads, the keys whose element is held by an accessor that can
    write, and the shared state. *)
Record Config := mkConfig {
  threads : list Thread;
  locks : gset string;
  shared : State;
}.

(** Where a thread continues after an operation. *)
Definition resume {A} (r : outcome A * State) (next : A → pc) (thrown : pc)
    : pc * State :=
  match r with
  | (Ret a, σ) => (next a, σ)
  | (bad_alloc, σ) => (thrown, σ)
  | (undefined, σ) => (Crashed, σ)
  end.

(** One atomic step of a thread, or [None] when it has finished or has to
    wait for the element of its key.  Building the key touches nothing
    shared but the free store, whose room other steps can change at any
    time, so it is part of the first step, which ends in the exception when
    the buffer of the key cannot be had.  [Find] runs under a shared lock on
    the element and only reads, so it is one step, enabled when no writer
    holds the element; [_hashMap.insert] takes the element for writing
    until the accessor is destroyed at the end of [Insert]. *)
Definition thread_step (t : Thread) (L : gset string) (σ : State)
    : option (pc * gset string * State) :=
  match at_pc t with
  | Start =>
      match _CreatePrimTypeInfoKey (primType t) (appliedSchemas t) σ with
      | (Ret key, σ) =>
          if IsEmpty key then
            let '(l, σ') := resume (GetEmptyPrimTypeInfo σ) Done Thrown in
            Some (l, L, σ')
          else if decide (key ∈ L) then None
          else
            let '(l, σ') :=
              resume (Find key σ)
                (λ primTypeInfo,
                   match primTypeInfo with
                   | Some _ => Done primTypeInfo
                   | None => Missed
                   end) Thrown in
            Some (l, L, σ')
      | (bad_alloc, σ) => Some (Thrown, L, σ)
      | (undefined, σ) => Some (Crashed, L, σ)
      end
  | Missed =>
      let '(l, σ') :=
        resume (new_Usd_PrimTypeInfo (primType t) (appliedSchemas t) σ)
          Built Thrown in
      Some (l, L, σ')
  | Built newPrimTypeInfo =>
      if decide (key t ∈ L) then None
      else
        match Tbb.insert (key t) σ with
        | (Ret inserted, σ') =>
            Some (Locked inserted (Some newPrimTypeInfo), {[key t]} ∪ L, σ')
        | (bad_alloc, σ') => Some (Unwinding (Some newPrimTypeInfo), L, σ')
        | (undefined, σ') => Some (Crashed, L, σ')
        end
  | Locked true valuePtr =>
      let '(l, σ') :=
        resume (Tbb.assign (key t) valuePtr σ)
          (λ _, Locked false nullptr) Thrown in
      Some (l, L, σ')
  | Locked false valuePtr =>
      let '(l, σ') :=
        resume (Tbb.get (key t) σ) (Returning valuePtr) Thrown in
      Some (l, L ∖ {[key t]}, σ')
  | Returning valuePtr result =>
      let '(l, σ') :=
        resume (unique_ptr_dtor valuePtr σ) (λ _, Done result) Thrown in
      Some (l, L, σ')
  | Unwinding valuePtr =>
      let '(l, σ') :=
        resume (unique_ptr_dtor valuePtr σ) (λ _, Thrown) Thrown in
      Some (l, L, σ')
  | Done _ | Thrown | Crashed => None
  end.

(** Thread [i] takes a step when it can. *)
Definition schedule (i : nat) (c : Config) : option Config :=
  t ← threads c !! i;
  '(l, L, σ) ← thread_step t (locks c) (shared c);
  Some (mkConfig (<[i := goto t l]> (threads c)) L σ).

(** A step of the system: a thread moves, or the rest of the process
    changes the room left in the free store. *)
Inductive step : Config → Config → Prop :=
  | step_thread i c c' : schedule i c = Some c' → step c c'
  | step_avail n c :
      step c (mkConfig (threads c) (locks c) (with_avail n (shared c))).

Definition steps : Config → Config → Prop := rtc step.

(** Run a schedule: the listed threads take a step each, in order; a thread
    that cannot move is skipped. *)
Definition run (sched : list nat) (c : Config) : Config :=
  fold_left (λ c i, default c (schedule i c)) sched c.

(** The callers enter together on state [σ]. *)
Definition enter (requests : list (string * list string)) (σ : State)
    : Config :=
  mkConfig ((λ r, mkThread r.1 r.2 Start) <$> requests) ∅ σ.

Definition finished_pc (l : pc) : bool :=
  match l with Done _ | Thrown | Crashed => true | _ => false end.

(** Every thread has left the call. *)
Definition finished (c : Config) : Prop :=
  ∀ i t, threads c !! i = Some t → finished_pc (at_pc t) = true.

(** The object a thread owns through its local [unique_ptr]. *)
Definition owns (t : Thread) : option positive :=
  match at_pc t with
  | Built a => Some a
  | Locked _ valuePtr | Returning valuePtr _ | Unwinding valuePtr => valuePtr
  | _ => None
  end.

(** The key whose element a thread's accessor holds. *)
Definition holds (t : Thread) : option string :=
  match at_pc t with
  | Locked _ _ => Some (key t)
  | _ => None
  end.

(** The steps a thread has left at most. *)
Definition weight (l : pc) : nat :=
  match l with
  | Start => 6
  | Missed => 5
  | Built _ => 4
  | Locked true _ => 3
  | Locked false _ => 2
  | Returning _ _ | Unwinding _ => 1
  | Done _ | Thrown | Crashed => 0
  end.

Definition remaining (c : Config) : nat :=
  sum_list ((λ t, weight (at_pc t)) <$> threads c).

(** What a thread knows at each point. *)
Definition thread_ok (σ : State) (t : Thread) : Prop :=
  match at_pc t with
  | Start | Thrown => True
  | Missed | Built _ | Unwinding _ => IsEmpty (key t) = false
  | Locked true valuePtr =>
      IsEmpty (key t) = false ∧ _hashMap σ !! key t = Some nullptr ∧
      is_Some valuePtr
  | Locked false _ =>
      IsEmpty (key t) = false ∧ ∃ a, _hashMap σ !! key t = Some (Some a)
  | Returning valuePtr result =>
      IsEmpty (key t) = false ∧ is_Some result ∧
      _hashMap σ !! key t = Some result
  | Done result =>
      if IsEmpty (key t) then result = _emptyPrimTypeInfo σ
      else is_Some result ∧ _hashMap σ !! key t = Some result
  | Crashed => False
  end.

(** The invariant of the system. *)
Record inv (c : Config) : Prop := mk_inv {
  inv_empty : ∃ e,
    _emptyPrimTypeInfo (shared c) = Some e ∧
    objects (shared c) !! e = Some EmptyPrimType;
  (** an entry owns a live object filed under its key, or is the null
      value of a node whose inserter still holds it *)
  inv_entry : ∀ k v, _hashMap (shared c) !! k = Some v →
    IsEmpty k = false ∧
    match v with
    | Some a => ∃ d, objects (shared c) !! a = Some d ∧ key_of d = k ∧
                     _emptyPrimTypeInfo (shared c) ≠ Some a
    | None => ∃ i t valuePtr, threads c !! i = Some t ∧
                     at_pc t = Locked true valuePtr ∧ key t = k
    end;
  inv_owner : ∀ k1 k2 a,
    _hashMap (shared c) !! k1 = Some (Some a) →
    _hashMap (shared c) !! k2 = Some (Some a) → k1 = k2;
  (** the held keys are those of the accessors, one accessor each *)
  inv_locks : ∀ k, k ∈ locks c ↔
    ∃ i t, threads c !! i = Some t ∧ holds t = Some k;
  inv_holder : ∀ i j ti tj k,
    threads c !! i = Some ti → threads c !! j = Some tj →
    holds ti = Some k → holds tj = Some k → i = j;
  (** what a thread owns is live, built from its request, owned by no
      entry and by no other thread *)
  inv_owned : ∀ i t a, threads c !! i = Some t → owns t = Some a →
    objects (shared c) !! a
      = Some (mkPrimTypeInfo (primType t) (appliedSchemas t)) ∧
    _emptyPrimTypeInfo (shared c) ≠ Some a ∧
    ∀ k, _hashMap (shared c) !! k ≠ Some (Some a);
  inv_owned_once : ∀ i j ti tj a,
    threads c !! i = Some ti → threads c !! j = Some tj →
    owns ti = Some a → owns tj = Some a → i = j;
  (** every live object has an owner *)
  inv_no_leak : ∀ a, is_Some (objects (shared c) !! a) →
    _emptyPrimTypeInfo (shared c) = Some a ∨
    (∃ k, _hashMap (shared c) !! k = Some (Some a)) ∨
    (∃ i t, threads c !! i = Some t ∧ owns t = Some a);
  inv_thread : ∀ i t, threads c !! i = Some t → thread_ok (shared c) t;
}.

(** Where a thread is left by an outcome of the call. *)
Definition left_with {A} (r : outcome A) (done : A → pc) : pc :=
  match r with
  | Ret a => done a
  | bad_alloc => Thrown
  | undefined => Crashed
  end.

End Concurrent.

(** ** Callers one after the other *)

(** The key of a request. *)
Definition request_key (r : string * list string) : string :=
  key_string r.1 r.2.

(** The requests are served in order: the outcomes in order and the state
    the last call leaves. *)
Fixpoint run_calls (requests : list (string * list string)) (σ : State)
    : list (outcome (option positive)) * State :=
  match requests with
  | [] => ([], σ)
  | r :: rest =>
      let '(o, σ') := FindOrCreatePrimTypeInfo r.1 r.2 σ in
      let '(os, σ'') := run_calls rest σ' in
      (o :: os, σ'')
  end.

(** The non-empty keys among those of the requests. *)
Definition keys_requested (requests : list (string * list string))
    : gset string :=
  list_to_set (filter (λ k, IsEmpty k = false) (request_key <$> requests)).

(** Whether a thread holds a descriptor that is in no node of the map: one
    it has built and not yet offered, or one that lost and is to be
    deleted.  A thread whose node is still null has its descriptor counted
    with that node. *)
Definition speculative (l : Concurrent.pc) : nat :=
  match l with
  | Concurrent.Built _ => 1
  | Concurrent.Locked false (Some _) => 1
  | Concurrent.Returning (Some _) _ => 1
  | Concurrent.Unwinding (Some _) => 1
  | _ => 0
  end.

(** The descriptors held by threads outside the map. *)
Definition in_flight (c : Concurrent.Config) : nat :=
  sum_list ((λ t, speculative (Concurrent.at_pc t)) <$> Concurrent.threads c).

(** * Facts about the model *)

(** ** String facts used by the key builder *)

Section string_facts.

Lemma app_empty_r (s : string) : s +:+ "" = s.
Proof. induction s as [|c s IH]; simpl; congruence. Qed.

Lemma app_assoc_s (s t u : string) : (s +:+ t) +:+ u = s +:+ (t +:+ u).
Proof. induction s as [|c s IH]; simpl; congruence. Qed.

Lemma app_length_s (s t : string) :
  String.length (s +:+ t) = String.length s + String.length t.
Proof. induction s as [|c s IH]; simpl; congruence. Qed.

Lemma app_inv_head_s (s t u : string) : s +:+ t = s +:+ u → t = u.
Proof. induction s as [|c s IH]; simpl; [done|]. intros [=]. auto. Qed.

Lemma app_is_empty (s t : string) : s +:+ t = "" → s = "" ∧ t = "".
Proof. destruct s; simpl; [done|discriminate]. Qed.

Lemma occurs_app (c : ascii) (s t : string) :
  occurs c (s +:+ t) = occurs c s || occurs c t.
Proof.
  induction s as [|c' s IH]; simpl; [done|].
  destruct (decide (c = c')); auto.
Qed.

(** Two strings that continue with a separator after a separator-free
    prefix agree on the prefix and on the rest. *)
Lemma split_at_sep (a b r r' : string) :
  well_formed a → well_formed b →
  a +:+ String sep r = b +:+ String sep r' → a = b ∧ r = r'.
Proof.
  unfold well_formed. revert b.
  induction a as [|c a IH]; intros [|d b] Ha Hb; simpl in *.
  - intros [=]. done.
  - intros [= <- _]. destruct (decide (sep = sep)); congruence.
  - intros [= -> _]. destruct (decide (sep = sep)); congruence.
  - intros [= -> Heq].
    destruct (decide (sep = d)); [done|].
    destruct (IH b Ha Hb Heq) as [-> ->]. done.
Qed.

(** The same when one side ends where the other continues. *)
Lemma split_at_end (a b r : string) :
  well_formed a → well_formed b →
  a = b +:+ String sep r → False.
Proof.
  unfold well_formed. intros Ha Hb ->.
  rewrite occurs_app in Ha. simpl in Ha.
  destruct (decide (sep = sep)); [|done].
  by rewrite orb_true_r in Ha.
Qed.

End string_facts.

(** ** Facts about the key builder *)

Section key_facts.

Lemma fold_append (acc : string) (l : TfTokenVector) :
  fold_left (λ fullTypeString schemaType,
               (fullTypeString +:+ ",") +:+ schemaType) l acc
  = acc +:+ separated l.
Proof.
  revert acc. induction l as [|t l IH]; intros acc; simpl.
  - by rewrite app_empty_r.
  - rewrite IH. rewrite !app_assoc_s. done.
Qed.

Lemma key_eq_BuildKey (p : TfToken) (l : TfTokenVector) :
  key_string p l = BuildKey p l.
Proof.
  destruct l as [|t l]; [done|].
  unfold key_string, appended, BuildKey.
  cbv zeta. by rewrite fold_append.
Qed.

Lemma key_cons (p t : TfToken) (l : TfTokenVector) :
  key_string p (t :: l) = p +:+ String sep (t +:+ separated l).
Proof. by rewrite key_eq_BuildKey. Qed.

Lemma separated_inj (l1 l2 : TfTokenVector) :
  Forall well_formed l1 → Forall well_formed l2 →
  separated l1 = separated l2 → l1 = l2.
Proof.
  intros H1. revert l2.
  induction H1 as [|a l1 Ha H1 IH]; intros l2 H2 Heq.
  - destruct l2; [done|discriminate].
  - destruct H2 as [|b l2 Hb H2]; [discriminate|].
    simpl in Heq. injection Heq as Heq.
    destruct l1 as [|a' l1], l2 as [|b' l2]; simpl in Heq.
    + rewrite !app_empty_r in Heq. by subst.
    + rewrite app_empty_r in Heq.
      by destruct (split_at_end a b (b' +:+ separated l2)).
    + rewrite app_empty_r in Heq. symmetry in Heq.
      by destruct (split_at_end b a (a' +:+ separated l1)).
    + destruct (split_at_sep _ _ _ _ Ha Hb Heq) as [-> Hr].
      f_equal. apply IH; [done|]. simpl. by f_equal.
Qed.

(** On well-formed identifiers the key determines the request. *)
Lemma key_inj (p1 p2 : TfToken) (l1 l2 : TfTokenVector) :
  well_formed p1 → well_formed p2 →
  Forall well_formed l1 → Forall well_formed l2 →
  key_string p1 l1 = key_string p2 l2 →
  p1 = p2 ∧ l1 = l2.
Proof.
  intros Hp1 Hp2 Hl1 Hl2. rewrite !key_eq_BuildKey.
  destruct l1 as [|a l1], l2 as [|b l2]; simpl.
  - done.
  - intros Heq. by destruct (split_at_end _ _ _ Hp1 Hp2 Heq).
  - intros Heq. symmetry in Heq.
    by destruct (split_at_end _ _ _ Hp2 Hp1 Heq).
  - intros Heq. destruct (split_at_sep _ _ _ _ Hp1 Hp2 Heq) as [-> Hr].
    split; [done|].
    apply separated_inj; [done..|]. simpl. by f_equal.
Qed.

Lemma key_empty_iff (p : TfToken) (l : TfTokenVector) :
  IsEmpty (key_string p l) = true ↔ p = "" ∧ l = [].
Proof.
  split.
  - destruct l as [|t l].
    + simpl. destruct p; [done|discriminate].
    + rewrite key_cons. destruct p; simpl; discriminate.
  - intros [-> ->]. done.
Qed.

End key_facts.

(** ** What one call does *)

Section call_facts.

Implicit Types (σ : State) (p : string) (s : list string).

Lemma State_eta σ :
  mkState (objects σ) (avail σ) (_hashMap σ) (_emptyPrimTypeInfo σ) = σ.
Proof. by destruct σ. Qed.

Lemma fresh_not_live σ : objects σ !! fresh (dom (objects σ)) = None.
Proof. apply not_elem_of_dom, is_fresh. Qed.

(** What building the key does: it throws when it needs a buffer and the
    free store has none, and otherwise returns the key and leaves the state
    as it was. *)
Lemma key_builder_cases p s σ :
  _CreatePrimTypeInfoKey p s σ =
    if needs_buffer p s && bool_decide (avail σ = 0)
    then (bad_alloc, σ) else (Ret (key_string p s), σ).
Proof.
  destruct s as [|t s]; [done|].
  unfold _CreatePrimTypeInfoKey, needs_buffer, key_string, bind,
    string_reserve, string_dtor, ret.
  destruct (decide (tokenSize p (t :: s) ≤ small_string_capacity)) as [Hle|Hgt].
  - by rewrite bool_decide_false by (intros Hn; by apply Hn).
  - rewrite bool_decide_true by done. simpl.
    destruct (avail σ) as [|n] eqn:Ha.
    + by rewrite bool_decide_true.
    + rewrite bool_decide_false by lia. simpl.
      by rewrite <- Ha, State_eta.
Qed.

Lemma key_builder_returns p s σ :
  needs_buffer p s = false ∨ 1 ≤ avail σ →
  _CreatePrimTypeInfoKey p s σ = (Ret (key_string p s), σ).
Proof.
  intros Hroom. rewrite key_builder_cases.
  destruct Hroom as [->|Hn]; [done|].
  rewrite (bool_decide_false (avail σ = 0)) by lia.
  by rewrite andb_false_r.
Qed.

Lemma key_builder_throws p s σ :
  needs_buffer p s = true → avail σ = 0 →
  _CreatePrimTypeInfoKey p s σ = (bad_alloc, σ).
Proof.
  intros Hb Ha. rewrite key_builder_cases, Hb.
  by rewrite bool_decide_true.
Qed.

Lemma needs_buffer_nonempty p s : needs_buffer p s = true → s ≠ [].
Proof. by destruct s. Qed.

(** Once the key is built the call goes on with it. *)
Lemma call_with_key p s σ :
  needs_buffer p s = false ∨ 1 ≤ avail σ →
  FindOrCreatePrimTypeInfo p s σ =
    (if IsEmpty (key_string p s) then GetEmptyPrimTypeInfo
     else
       let* primTypeInfo := Find (key_string p s) in
       match primTypeInfo with
       | Some _ => ret primTypeInfo
       | None =>
           let* newPrimTypeInfo := new_Usd_PrimTypeInfo p s in
           Insert (key_string p s) (Some newPrimTypeInfo)
       end) σ.
Proof.
  intros Hroom. unfold FindOrCreatePrimTypeInfo. unfold bind at 1.
  by rewrite key_builder_returns.
Qed.

(** Without room for the buffer of the key the call throws at once. *)
Lemma call_key_bad_alloc p s σ :
  needs_buffer p s = true → avail σ = 0 →
  FindOrCreatePrimTypeInfo p s σ = (bad_alloc, σ).
Proof.
  intros Hb Ha. unfold FindOrCreatePrimTypeInfo. unfold bind at 1.
  by rewrite key_builder_throws.
Qed.

(** The degenerate key: the singleton, the state untouched. *)
Lemma call_empty_key p s σ :
  IsEmpty (key_string p s) = true →
  FindOrCreatePrimTypeInfo p s σ = (Ret (_emptyPrimTypeInfo σ), σ).
Proof.
  intros H. apply key_empty_iff in H as H'. destruct H' as [-> ->]. done.
Qed.

(** A hit, the key built: the stored pointer, the state untouched. *)
Lemma call_hit p s σ a :
  needs_buffer p s = false ∨ 1 ≤ avail σ →
  IsEmpty (key_string p s) = false →
  _hashMap σ !! key_string p s = Some (Some a) →
  FindOrCreatePrimTypeInfo p s σ = (Ret (Some a), σ).
Proof.
  intros Hroom H Hk. rewrite call_with_key by done. rewrite H.
  unfold bind, Find, Tbb.find, bind. by rewrite Hk.
Qed.

(** A miss with room for the object and the node: the new object is the
    entry and the result. *)
Lemma call_miss p s σ n :
  IsEmpty (key_string p s) = false →
  _hashMap σ !! key_string p s = None →
  avail σ = S (S n) →
  FindOrCreatePrimTypeInfo p s σ =
    (Ret (Some (fresh (dom (objects σ)))),
     mkState (<[fresh (dom (objects σ)) := mkPrimTypeInfo p s]> (objects σ))
             n
             (<[key_string p s := Some (fresh (dom (objects σ)))]>
                (_hashMap σ))
             (_emptyPrimTypeInfo σ)).
Proof.
  intros H Hk Hn. rewrite call_with_key by (right; lia). rewrite H.
  unfold bind at 1. unfold Find, Tbb.find, bind at 1. rewrite Hk.
  unfold ret at 1. cbv beta iota.
  unfold bind at 1, new_Usd_PrimTypeInfo. rewrite Hn.
  unfold Insert, on_unwind, Tbb.insert, bind, Tbb.assign, Tbb.get, ret.
  simpl. rewrite Hk. simpl.
  rewrite lookup_insert_eq. simpl. by rewrite insert_insert_eq.
Qed.

(** A miss without that room: [std::bad_alloc], and the state as it was;
    the object built before the node could not be allocated is deleted. *)
Lemma call_miss_bad_alloc p s σ :
  IsEmpty (key_string p s) = false →
  _hashMap σ !! key_string p s = None →
  avail σ < 2 →
  FindOrCreatePrimTypeInfo p s σ = (bad_alloc, σ).
Proof.
  intros H Hk Hn.
  destruct (needs_buffer p s) eqn:Hb; [destruct (avail σ) as [|m] eqn:Hm|].
  { by apply call_key_bad_alloc. }
  all: rewrite call_with_key by (first [by left|right; lia]); rewrite H.
  all: unfold bind at 1; unfold Find, Tbb.find, bind at 1; rewrite Hk.
  all: unfold ret at 1; cbv beta iota.
  all: unfold bind at 1, new_Usd_PrimTypeInfo.
  - rewrite Hm. destruct m as [|m]; [|lia].
    unfold Insert, on_unwind, Tbb.insert, bind, unique_ptr_dtor,
      delete_Usd_PrimTypeInfo.
    simpl. rewrite Hk. simpl. rewrite lookup_insert_eq. simpl.
    f_equal. rewrite delete_insert_id by apply fresh_not_live.
    rewrite <- Hm. apply State_eta.
  - destruct (avail σ) as [|[|m]] eqn:Ha; [done| |lia].
    unfold Insert, on_unwind, Tbb.insert, bind, unique_ptr_dtor,
      delete_Usd_PrimTypeInfo.
    simpl. rewrite Hk. simpl. rewrite lookup_insert_eq. simpl.
    f_equal. rewrite delete_insert_id by apply fresh_not_live.
    rewrite <- Ha. apply State_eta.
Qed.

End call_facts.

(** ** The invariant holds between calls *)

Section invariants.

Implicit Types (σ : State) (p : string) (s : list string).

Lemma call_cases p s σ : wf σ → call_case p s σ.
Proof.
  intros Hwf.
  assert ((needs_buffer p s = true ∧ avail σ = 0) ∨
          (needs_buffer p s = false ∨ 1 ≤ avail σ)) as [[Hb Ha]|Hroom].
  { destruct (needs_buffer p s); [|by auto].
    destruct (avail σ); [by left|right; right; lia]. }
  { apply case_key_bad_alloc; [done..|]. by apply call_key_bad_alloc. }
  destruct (IsEmpty (key_string p s)) eqn:He.
  { apply case_empty; [done|]. by apply call_empty_key. }
  destruct (_hashMap σ !! key_string p s) as [v|] eqn:Hk.
  { destruct (wf_entry σ Hwf _ _ Hk) as (_ & a & d & -> & _).
    eapply case_hit; [done..|]. by apply call_hit. }
  destruct (avail σ) as [|[|n]] eqn:Ha.
  - apply case_bad_alloc; [done|done|lia|]. apply call_miss_bad_alloc; [done..|lia].
  - apply case_bad_alloc; [done|done|lia|]. apply call_miss_bad_alloc; [done..|lia].
  - eapply case_created; [done..|]. by apply call_miss.
Qed.

Lemma wf_ctor n : wf (Usd_PrimTypeInfoCache n).
Proof.
  split; simpl.
  - exists GetEmptyPrimType. split; [done|]. by rewrite lookup_singleton_eq.
  - intros k v Hk. by rewrite lookup_empty in Hk.
  - intros k1 k2 a Hk. by rewrite lookup_empty in Hk.
  - intros a [d Ha]. left.
    apply lookup_singleton_Some in Ha as [<- _]. done.
Qed.

Lemma wf_with_avail n σ : wf σ → wf (with_avail n σ).
Proof. intros [? ? ? ?]. by split. Qed.

Lemma wf_created p s n σ :
  wf σ →
  IsEmpty (key_string p s) = false →
  _hashMap σ !! key_string p s = None →
  wf (created p s n σ).
Proof.
  intros [He Hent Hown Hleak] Hne Hk.
  pose proof (fresh_not_live σ) as Hfresh.
  set (a := fresh (dom (objects σ))) in *.
  split; unfold created; fold a; simpl.
  - destruct He as (e & He & Hlive). exists e. split; [done|].
    rewrite lookup_insert_ne; [done|]. congruence.
  - intros k v. rewrite lookup_insert_Some.
    intros [[<- <-]|[Hkk Hv]].
    + split; [done|]. exists a, (mkPrimTypeInfo p s).
      rewrite lookup_insert_eq. split_and!; [done..|].
      destruct He as (e & -> & Hlive). congruence.
    + destruct (Hent k v Hv) as (Hk' & a' & d & -> & Ha' & Hd & Hne').
      split; [done|]. exists a', d. split_and!; [done| |done..].
      rewrite lookup_insert_ne; [done|]. congruence.
  - intros k1 k2 a0. rewrite !lookup_insert_Some.
    intros [[<- [= <-]]|[Hk1 H1]] [[<- Heq]|[Hk2 H2]]; [done| | |by eauto].
    + destruct (Hent _ _ H2) as (_ & a' & d & [= <-] & Ha' & _). congruence.
    + injection Heq as <-.
      destruct (Hent _ _ H1) as (_ & a' & d & [= <-] & Ha' & _). congruence.
  - intros a0. rewrite lookup_insert_is_Some.
    intros [<-|[Hne0 Hlive]].
    + right. exists (key_string p s). by rewrite lookup_insert_eq.
    + destruct (Hleak a0 Hlive) as [?|[k Hk0]]; [by left|].
      right. exists k. rewrite lookup_insert_ne; [done|]. congruence.
Qed.

(** A call keeps the invariant, however it ends. *)
Lemma wf_call p s σ : wf σ → wf (FindOrCreatePrimTypeInfo p s σ).2.
Proof.
  intros Hwf.
  destruct (call_cases p s σ Hwf) as [? ->|? ? ? ->|? ? ? ->|? ? ->|? ? ? ? ->];
    simpl; [done..|].
  by apply wf_created.
Qed.

Lemma reachable_wf P σ : reachable_by P σ → wf σ.
Proof.
  induction 1; [apply wf_ctor|by apply wf_call|by apply wf_with_avail].
Qed.

Lemma reachable_by_any P σ : reachable_by P σ → reachable σ.
Proof. induction 1; by constructor. Qed.

Lemma faithful_call p s σ :
  wf σ → faithful σ → well_formed_request p s →
  faithful (FindOrCreatePrimTypeInfo p s σ).2.
Proof.
  intros Hwf Hf Hps.
  destruct (call_cases p s σ Hwf) as [? ->|? ? ? ->|? ? ? ->|? ? ->|? Hne Hk ? ->];
    simpl; [done..|].
  pose proof (fresh_not_live σ) as Hfresh.
  intros k a d. unfold created; simpl.
  rewrite lookup_insert_Some. intros [[<- [= <-]]|[Hkk Hv]].
  - rewrite lookup_insert_eq. by intros [= <-].
  - destruct (wf_entry σ Hwf _ _ Hv) as (_ & a' & d' & [= <-] & Ha' & _).
    rewrite lookup_insert_ne by congruence. intros Hd. by eapply Hf.
Qed.

Lemma reachable_faithful σ :
  reachable_by well_formed_request σ → faithful σ.
Proof.
  induction 1 as [n|σ p s Hr IH Hps|σ n Hr IH].
  - intros k a d Hk. simpl in Hk. by rewrite lookup_empty in Hk.
  - apply faithful_call; [by eapply reachable_wf|done..].
  - exact IH.
Qed.

End invariants.

(** ** Later calls keep what is there *)

Section monotone.

Implicit Types (σ : State) (p : string) (s : list string).

Lemma preserved_refl σ : preserved σ σ.
Proof. by split. Qed.

Lemma preserved_trans σ1 σ2 σ3 :
  preserved σ1 σ2 → preserved σ2 σ3 → preserved σ1 σ3.
Proof.
  intros [H1 H2 H3] [G1 G2 G3]. split; [by auto..|congruence].
Qed.

Lemma preserved_created p s n σ :
  _hashMap σ !! key_string p s = None →
  preserved σ (created p s n σ).
Proof.
  intros Hk. pose proof (fresh_not_live σ) as Hfresh.
  split; unfold created; simpl; [| |done].
  - intros k v Hv. rewrite lookup_insert_ne; [done|]. congruence.
  - intros a d Ha. rewrite lookup_insert_ne; [done|]. congruence.
Qed.

Lemma preserved_call p s σ :
  wf σ → preserved σ (FindOrCreatePrimTypeInfo p s σ).2.
Proof.
  intros Hwf.
  destruct (call_cases p s σ Hwf) as [? ->|? ? ? ->|? ? ? ->|? ? ->|? ? ? ? ->];
    simpl; [apply preserved_refl..|].
  by apply preserved_created.
Qed.

Lemma evolves_wf σ σ' : wf σ → evolves σ σ' → wf σ'.
Proof.
  intros Hwf. induction 1; [done|by apply wf_call; auto|].
  by apply wf_with_avail; auto.
Qed.

Lemma evolves_preserved σ σ' : wf σ → evolves σ σ' → preserved σ σ'.
Proof.
  intros Hwf. induction 1 as [σ|σ σ' p s Hev IH|σ σ' n Hev IH].
  - apply preserved_refl.
  - eapply preserved_trans; [by apply IH|].
    apply preserved_call. by eapply evolves_wf.
  - eapply preserved_trans; [by apply IH|]. by split.
Qed.

Lemma reachable_evolves P σ σ' :
  reachable_by P σ → evolves σ σ' → reachable σ'.
Proof.
  intros Hr. induction 1; [by eapply reachable_by_any| |].
  - by apply reach_call; auto.
  - by apply reach_avail; auto.
Qed.

(** A call that returns on a well-formed state returns a pointer to a
    live object filed under the key of the request, and for a non-empty
    key that pointer is the entry of the key. *)
Lemma call_returns p s σ r σ' :
  wf σ →
  FindOrCreatePrimTypeInfo p s σ = (Ret r, σ') →
  (∃ a d, r = Some a ∧ objects σ' !! a = Some d ∧
          key_of d = key_string p s) ∧
  (if IsEmpty (key_string p s)
   then r = _emptyPrimTypeInfo σ ∧ σ' = σ
   else _hashMap σ' !! key_string p s = Some r ∧
        r ≠ _emptyPrimTypeInfo σ).
Proof.
  intros Hwf Hcall.
  destruct (call_cases p s σ Hwf)
    as [He Heq|a He Hk Heq|He Hk Hn Heq|Hb Ha Heq|n He Hk Hn Heq];
    rewrite Heq in Hcall; simplify_eq; rewrite He.
  - destruct (wf_empty _ Hwf) as (e & Hptr & Hlive).
    split; [|done]. exists e, EmptyPrimType. split_and!; [done..|].
    destruct (key_string p s); [done|discriminate].
  - destruct (wf_entry _ Hwf _ _ Hk) as (_ & a' & d & [= <-] & ? & ? & ?).
    split; [|by split]. by exists a, d.
  - unfold created; simpl. rewrite lookup_insert_eq.
    split; [|split; [done|]].
    + eexists _, _. split; [done|]. by rewrite lookup_insert_eq.
    + destruct (wf_empty _ Hwf) as (e & Hptr & Hlive).
      rewrite Hptr. intros [= Hfr].
      pose proof (fresh_not_live σ) as Hfresh. congruence.
Qed.

(** With room for an object and a node, a call returns. *)
Lemma call_succeeds p s σ :
  wf σ → 2 ≤ avail σ →
  ∃ a σ', FindOrCreatePrimTypeInfo p s σ = (Ret (Some a), σ') ∧
          avail σ ≤ avail σ' + 2.
Proof.
  intros Hwf Hn.
  destruct (call_cases p s σ Hwf)
    as [He Heq|a He Hk Heq|He Hk Hn' Heq|Hb Ha Heq|n He Hk Hn' Heq];
    [| |lia|lia|].
  - destruct (wf_empty _ Hwf) as (e & Hptr & Hlive).
    exists e, σ. rewrite Heq, Hptr. split; [done|lia].
  - exists a, σ. split; [done|lia].
  - eexists _, _. split; [done|]. unfold created; simpl. lia.
Qed.

(** On a faithful state, the object a well-formed request gets was built
    from that very request. *)
Lemma call_returns_faithful p s σ a σ' :
  wf σ → faithful σ → well_formed_request p s →
  IsEmpty (key_string p s) = false →
  FindOrCreatePrimTypeInfo p s σ = (Ret (Some a), σ') →
  objects σ' !! a = Some (mkPrimTypeInfo p s).
Proof.
  intros Hwf Hf [Hp Hs] He Hcall.
  pose proof (faithful_call p s σ Hwf Hf (conj Hp Hs)) as Hf'.
  rewrite Hcall in Hf'. simpl in Hf'.
  destruct (call_returns _ _ _ _ _ Hwf Hcall) as [(a' & d & [= <-] & Hd & Hkey) Hent].
  rewrite He in Hent. destruct Hent as [Hent _].
  destruct (Hf' _ _ _ Hent Hd) as [Hdp Hds].
  destruct d as [dp ds]; simpl in *.
  destruct (key_inj dp p ds s Hdp Hp Hds Hs Hkey) as [-> ->]. done.
Qed.

End monotone.

(** ** The invariant holds along every interleaving *)

Import Concurrent.

Section pool.

Implicit Types (ts : list Thread) (t : Thread) (σ : State) (c : Config).

Lemma pool_lookup ts i t' j x :
  <[i := t']> ts !! j = Some x →
  (j = i ∧ x = t') ∨ (j ≠ i ∧ ts !! j = Some x).
Proof.
  intros H. destruct (decide (j = i)) as [->|Hne].
  - left. split; [done|].
    apply list_lookup_insert_Some in H as [(_ & -> & _)|[? _]]; done.
  - right. split; [done|]. by rewrite list_lookup_insert_ne in H.
Qed.

Lemma pool_lookup_same ts i t t' :
  ts !! i = Some t → <[i := t']> ts !! i = Some t'.
Proof. intros H. apply list_lookup_insert_eq. by eapply lookup_lt_Some. Qed.

Lemma pool_lookup_other ts i t' j x :
  j ≠ i → ts !! j = Some x → <[i := t']> ts !! j = Some x.
Proof. intros Hne H. by rewrite list_lookup_insert_ne. Qed.

Lemma key_goto t l : key (goto t l) = key t.
Proof. done. Qed.

(** A thread moves on without touching the state, the locks, what it owns
    or what it holds. *)
Lemma inv_relabel c i t l :
  inv c → threads c !! i = Some t →
  owns (goto t l) = owns t → holds (goto t l) = holds t →
  (∀ v, at_pc t ≠ Locked true v) →
  thread_ok (shared c) (goto t l) →
  inv (mkConfig (<[i := goto t l]> (threads c)) (locks c) (shared c)).
Proof.
  intros [He Hent Hown Hlocks Hholder Howned Honce Hleak Hthr] Hi Ho Hh Hnl Hok.
  assert (∀ j x, <[i := goto t l]> (threads c) !! j = Some x →
     ∃ y, threads c !! j = Some y ∧ owns y = owns x ∧ holds y = holds x ∧
          primType y = primType x ∧ appliedSchemas y = appliedSchemas x ∧
          (j ≠ i → y = x)) as Hback.
  { intros j x [[-> ->]|[Hne Hj]]%pool_lookup; [by exists t|by exists x]. }
  assert (∀ j y, threads c !! j = Some y →
     ∃ x, <[i := goto t l]> (threads c) !! j = Some x ∧
          owns x = owns y ∧ holds x = holds y ∧ (j ≠ i → x = y)) as Hforth.
  { intros j y Hj. destruct (decide (j = i)) as [->|Hne].
    - exists (goto t l). rewrite (pool_lookup_same _ _ _ _ Hi).
      by simplify_eq.
    - exists y. by rewrite (pool_lookup_other _ _ _ _ _ Hne Hj). }
  split; simpl; [done| |done| | | | | |].
  - intros k v Hk. destruct (Hent k v Hk) as [Hne Hv]. split; [done|].
    destruct v as [a|]; [done|].
    destruct Hv as (j & tj & vp & Hj & Hpc & Hkey).
    assert (j ≠ i) as Hji.
    { intros ->. simplify_eq. by eapply Hnl. }
    exists j, tj, vp. split; [|done]. by apply pool_lookup_other.
  - intros k. rewrite Hlocks. split.
    + intros (j & y & Hj & Hy). destruct (Hforth j y Hj) as (x & ? & ? & ? & _).
      exists j, x. split; [done|]. congruence.
    + intros (j & x & Hj & Hx).
      destruct (Hback j x Hj) as (y & ? & ? & ? & _).
      exists j, y. split; [done|]. congruence.
  - intros j1 j2 x1 x2 k H1 H2 Hk1 Hk2.
    destruct (Hback j1 x1 H1) as (y1 & ? & ? & ? & _).
    destruct (Hback j2 x2 H2) as (y2 & ? & ? & ? & _).
    eapply (Hholder j1 j2 y1 y2 k); congruence.
  - intros j x a Hj Hx.
    destruct (Hback j x Hj) as (y & Hy & Hoy & ? & Hp & Hs & _).
    rewrite <- Hp, <- Hs. apply (Howned j y a Hy). congruence.
  - intros j1 j2 x1 x2 a H1 H2 Ha1 Ha2.
    destruct (Hback j1 x1 H1) as (y1 & ? & ? & ? & _).
    destruct (Hback j2 x2 H2) as (y2 & ? & ? & ? & _).
    eapply (Honce j1 j2 y1 y2 a); congruence.
  - intros a Ha. destruct (Hleak a Ha) as [?|[?|(j & y & Hj & Hy)]]; [by auto..|].
    right. right. destruct (Hforth j y Hj) as (x & ? & ? & ? & _).
    exists j, x. split; [done|]. congruence.
  - intros j x [[-> ->]|[Hne Hj]]%pool_lookup; [done|]. by eapply Hthr.
Qed.

(** What a thread knows survives a change of the state that keeps the
    empty pointer, the entries that own an object, and the null entry the
    thread itself is about to fill. *)
Lemma thread_ok_mono σ σ' t :
  _emptyPrimTypeInfo σ' = _emptyPrimTypeInfo σ →
  (∀ k a, _hashMap σ !! k = Some (Some a) →
          _hashMap σ' !! k = Some (Some a)) →
  (∀ v, at_pc t = Locked true v → _hashMap σ !! key t = Some nullptr →
        _hashMap σ' !! key t = Some nullptr) →
  thread_ok σ t → thread_ok σ' t.
Proof.
  intros He Hk Hnull. unfold thread_ok.
  destruct (at_pc t) as [| |a|[] v|v r|v|r| |]; try done.
  - intros (? & ? & ?). eauto.
  - intros (? & a & ?). split; [done|]. exists a. auto.
  - intros (? & [a ->] & ?). split; [done|]. split; [by eexists|]. auto.
  - destruct (IsEmpty (key t)); [congruence|].
    intros ([a ->] & ?). split; [by eexists|]. auto.
Qed.

Ltac pool H := apply pool_lookup in H as [[-> ->]|[? H]].

(** Unfold what a thread owns, holds and knows at a known point. *)
Ltac foot :=
  unfold owns, holds, thread_ok; simpl;
  repeat match goal with H : at_pc _ = _ |- _ => rewrite H end;
  rewrite ?key_goto.

(** A thread constructs its descriptor. *)
Lemma inv_new c i t n :
  inv c → threads c !! i = Some t → at_pc t = Missed →
  inv (mkConfig
         (<[i := goto t (Built (fresh (dom (objects (shared c)))))]> (threads c))
         (locks c)
         (mkState (<[fresh (dom (objects (shared c))) :=
                      mkPrimTypeInfo (primType t) (appliedSchemas t)]>
                     (objects (shared c)))
                  n (_hashMap (shared c)) (_emptyPrimTypeInfo (shared c)))).
Proof.
  intros [He Hent Hown Hlocks Hholder Howned Honce Hleak Hthr] Hi Hpc.
  pose proof (fresh_not_live (shared c)) as Hfresh.
  set (a := fresh (dom (objects (shared c)))) in *.
  assert (owns t = None) as Hot by (unfold owns; by rewrite Hpc).
  assert (holds t = None) as Hht by (unfold holds; by rewrite Hpc).
  assert (∀ a' d, objects (shared c) !! a' = Some d →
            <[a := mkPrimTypeInfo (primType t) (appliedSchemas t)]>
              (objects (shared c)) !! a' = Some d) as Hlive.
  { intros a' d Ha'. rewrite lookup_insert_ne; [done|]. congruence. }
  split; simpl.
  - destruct He as (e & ? & ?). exists e. auto.
  - intros k v Hk. destruct (Hent k v Hk) as [Hne Hv]. split; [done|].
    destruct v as [a'|].
    + destruct Hv as (d & ? & ? & ?). exists d. auto.
    + destruct Hv as (j & tj & vp & Hj & Hpcj & Hkey).
      exists j, tj, vp. split; [|done]. apply pool_lookup_other; [|done].
      intros ->. congruence.
  - done.
  - intros k. rewrite Hlocks. split.
    + intros (j & y & Hj & Hy). exists j, y. split; [|done].
      apply pool_lookup_other; [|done]. intros ->. congruence.
    + intros (j & x & Hj & Hx). pool Hj; [done|]. by exists j, x.
  - intros j1 j2 x1 x2 k H1 H2 Hk1 Hk2. pool H1; [done|]. pool H2; [done|].
    by eapply Hholder.
  - intros j x a0 Hj Hx. pool Hj.
    + injection Hx as <-. simpl. rewrite lookup_insert_eq.
      split; [done|]. split.
      * destruct He as (e & -> & ?). congruence.
      * intros k Hk. destruct (Hent k _ Hk) as [_ (d & ? & _)]. congruence.
    + destruct (Howned j x a0 Hj Hx) as (? & ? & ?). auto.
  - intros j1 j2 x1 x2 a0 H1 H2 Ha1 Ha2. pool H1; pool H2; [done| | |].
    + injection Ha1 as <-.
      destruct (Howned j2 x2 a H2 Ha2) as (? & _). congruence.
    + injection Ha2 as <-.
      destruct (Howned j1 x1 a H1 Ha1) as (? & _). congruence.
    + by eapply Honce.
  - intros a0. rewrite lookup_insert_is_Some. intros [<-|[Hne Ha0]].
    + right. right. exists i, (goto t (Built a)).
      split; [by eapply pool_lookup_same|done].
    + destruct (Hleak a0 Ha0) as [?|[?|(j & y & Hj & Hy)]]; [by auto..|].
      right. right. exists j, y. split; [|done].
      apply pool_lookup_other; [|done]. intros ->. congruence.
  - intros j x Hj. pool Hj.
    + specialize (Hthr i t Hi). unfold thread_ok in *. simpl.
      by rewrite Hpc in Hthr.
    + apply (thread_ok_mono (shared c)); eauto.
Qed.

(** A thread's [_hashMap.insert] takes the element of its key, adding a
    node with a null value when [inserted]. *)
Lemma inv_lock c i t a (inserted : bool) n m' :
  inv c → threads c !! i = Some t → at_pc t = Built a →
  key t ∉ locks c →
  (∀ k a', m' !! k = Some (Some a') ↔
           _hashMap (shared c) !! k = Some (Some a')) →
  (∀ k, _hashMap (shared c) !! k = Some nullptr → m' !! k = Some nullptr) →
  (∀ k, m' !! k = Some nullptr →
        _hashMap (shared c) !! k = Some nullptr ∨
        (k = key t ∧ inserted = true)) →
  (if inserted then m' !! key t = Some nullptr
   else ∃ a', m' !! key t = Some (Some a')) →
  inv (mkConfig (<[i := goto t (Locked inserted (Some a))]> (threads c))
                ({[key t]} ∪ locks c)
                (mkState (objects (shared c)) n m'
                         (_emptyPrimTypeInfo (shared c)))).
Proof.
  intros [He Hent Hown Hlocks Hholder Howned Honce Hleak Hthr]
    Hi Hpc Hfree Hsome Hnull Hnull' Hkey.
  assert (owns t = Some a) as Hot by (unfold owns; by rewrite Hpc).
  assert (holds t = None) as Hht by (unfold holds; by rewrite Hpc).
  assert (IsEmpty (key t) = false) as Hne.
  { specialize (Hthr i t Hi). unfold thread_ok in Hthr. by rewrite Hpc in Hthr. }
  assert (∀ j x, <[i := goto t (Locked inserted (Some a))]> (threads c) !! j
                   = Some x →
     ∃ y, threads c !! j = Some y ∧ owns y = owns x ∧
          primType y = primType x ∧ appliedSchemas y = appliedSchemas x)
    as Hback.
  { intros j x Hj. pool Hj; [by exists t|by exists x]. }
  split; simpl.
  - done.
  - intros k [a'|] Hk.
    + apply Hsome in Hk. by apply Hent in Hk.
    + destruct (Hnull' k Hk) as [Hold|[-> ->]].
      * destruct (Hent k _ Hold) as [? (j & tj & vp & Hj & Hpcj & Hkj)].
        split; [done|]. exists j, tj, vp. split; [|done].
        apply pool_lookup_other; [|done]. intros ->. congruence.
      * split; [done|]. exists i, (goto t (Locked true (Some a))), (Some a).
        split; [by eapply pool_lookup_same|done].
  - intros k1 k2 a0 H1%Hsome H2%Hsome. by eapply Hown.
  - intros k. rewrite elem_of_union, elem_of_singleton, Hlocks. split.
    + intros [->|(j & y & Hj & Hy)].
      * exists i, (goto t (Locked inserted (Some a))).
        split; [by eapply pool_lookup_same|done].
      * exists j, y. split; [|done].
        apply pool_lookup_other; [|done]. intros ->. congruence.
    + intros (j & x & Hj & Hx). pool Hj.
      * left. by injection Hx as <-.
      * right. by exists j, x.
  - intros j1 j2 x1 x2 k H1 H2 Hk1 Hk2. pool H1; pool H2; [done| | |].
    + injection Hk1 as <-. destruct Hfree. apply Hlocks. by exists j2, x2.
    + injection Hk2 as <-. destruct Hfree. apply Hlocks. by exists j1, x1.
    + by eapply Hholder.
  - intros j x a0 Hj Hx. destruct (Hback j x Hj) as (y & Hy & Hoy & <- & <-).
    rewrite <- Hoy in Hx. destruct (Howned j y a0 Hy Hx) as (? & ? & Hno).
    split_and!; [done..|]. intros k Hk%Hsome. by eapply Hno.
  - intros j1 j2 x1 x2 a0 H1 H2 Ha1 Ha2.
    destruct (Hback j1 x1 H1) as (y1 & ? & ? & _).
    destruct (Hback j2 x2 H2) as (y2 & ? & ? & _).
    eapply (Honce j1 j2 y1 y2 a0); congruence.
  - intros a0 Ha0. destruct (Hleak a0 Ha0) as [?|[[k Hk]|(j & y & Hj & Hy)]].
    + by left.
    + right. left. exists k. by apply Hsome.
    + right. right. destruct (decide (j = i)) as [->|Hji].
      * exists i, (goto t (Locked inserted (Some a))).
        split; [by eapply pool_lookup_same|]. simplify_eq. done.
      * exists j, y. split; [|done]. by apply pool_lookup_other.
  - intros j x Hj. pool Hj.
    + unfold thread_ok. simpl. destruct inserted.
      * split_and!; [done|done|by eexists].
      * by split.
    + apply (thread_ok_mono (shared c)); [done| | |by eauto].
      * intros k a' Hk. by apply Hsome.
      * intros _ _. apply Hnull.
Qed.

(** A thread that inserted a node moves its descriptor into it. *)
Lemma inv_assign c i t a :
  inv c → threads c !! i = Some t → at_pc t = Locked true (Some a) →
  inv (mkConfig (<[i := goto t (Locked false nullptr)]> (threads c))
                (locks c)
                (mkState (objects (shared c)) (avail (shared c))
                         (<[key t := Some a]> (_hashMap (shared c)))
                         (_emptyPrimTypeInfo (shared c)))).
Proof.
  intros [He Hent Hown Hlocks Hholder Howned Honce Hleak Hthr] Hi Hpc.
  assert (owns t = Some a) as Hot by (unfold owns; by rewrite Hpc).
  assert (holds t = Some (key t)) as Hht by (unfold holds; by rewrite Hpc).
  destruct (Howned i t a Hi Hot) as (Hlive & Hnote & Hnotin).
  assert (IsEmpty (key t) = false ∧ _hashMap (shared c) !! key t = Some None)
    as [Hne Hnullk].
  { specialize (Hthr i t Hi). unfold thread_ok in Hthr. rewrite Hpc in Hthr.
    by destruct Hthr as (? & ? & ?). }
  split; simpl.
  - done.
  - intros k v. rewrite lookup_insert_Some. intros [[<- <-]|[Hk Hv]].
    + split; [done|]. by eexists.
    + destruct (Hent k v Hv) as [? Hcase]. split; [done|].
      destruct v as [a'|]; [done|].
      destruct Hcase as (j & tj & vp & Hj & Hpcj & Hkj).
      exists j, tj, vp. split; [|done].
      apply pool_lookup_other; [|done]. intros ->. congruence.
  - intros k1 k2 a0. rewrite !lookup_insert_Some.
    intros [[<- [= <-]]|[? H1]] [[<- Heq]|[? H2]]; [done| | |by eauto].
    + by destruct (Hnotin k2).
    + injection Heq as <-. by destruct (Hnotin k1).
  - intros k. rewrite Hlocks. split.
    + intros (j & y & Hj & Hy). destruct (decide (j = i)) as [->|Hji].
      * exists i, (goto t (Locked false None)).
        split; [by eapply pool_lookup_same|]. simplify_eq. done.
      * exists j, y. split; [|done]. by apply pool_lookup_other.
    + intros (j & x & Hj & Hx). pool Hj; [|by exists j, x].
      exists i, t. split; [done|]. rewrite Hht. exact Hx.
  - intros j1 j2 x1 x2 k H1 H2 Hk1 Hk2.
    assert (∃ y1, threads c !! j1 = Some y1 ∧ holds y1 = Some k) as (y1 & ? & ?).
    { pool H1; [|by exists x1]. exists t. split; [done|]. rewrite Hht. exact Hk1. }
    assert (∃ y2, threads c !! j2 = Some y2 ∧ holds y2 = Some k) as (y2 & ? & ?).
    { pool H2; [|by exists x2]. exists t. split; [done|]. rewrite Hht. exact Hk2. }
    by eapply (Hholder j1 j2 y1 y2 k).
  - intros j x a0 Hj Hx. pool Hj; [done|].
    destruct (Howned j x a0 Hj Hx) as (? & ? & Hno). split_and!; [done..|].
    intros k. rewrite lookup_insert_Some. intros [[<- [= <-]]|[? Hk]].
    + by destruct (Honce i j t x a).
    + by eapply Hno.
  - intros j1 j2 x1 x2 a0 H1 H2 Ha1 Ha2. pool H1; [done|]. pool H2; [done|].
    by eapply Honce.
  - intros a0 Ha0. destruct (Hleak a0 Ha0) as [?|[[k Hk]|(j & y & Hj & Hy)]].
    + by left.
    + right. left. exists k. rewrite lookup_insert_ne; [done|]. congruence.
    + right. destruct (decide (j = i)) as [->|Hji].
      * left. exists (key t). simplify_eq. by rewrite lookup_insert_eq.
      * right. exists j, y. split; [|done]. by apply pool_lookup_other.
  - intros j x Hj. pool Hj.
    + unfold thread_ok. simpl. split; [done|]. exists a.
      by rewrite key_goto, lookup_insert_eq.
    + apply (thread_ok_mono (shared c)); [done| | |by eauto].
      * intros k a' Hk. simpl. rewrite lookup_insert_ne; [done|]. congruence.
      * intros v Hpcx Hk. simpl. rewrite lookup_insert_ne; [done|]. intros Heq.
        destruct (Hholder i j t x (key t)); [done..| |done].
        unfold holds. rewrite Hpcx. congruence.
Qed.

(** A thread reads the entry of its key and its accessor lets go. *)
Lemma inv_release c i t v r :
  inv c → threads c !! i = Some t → at_pc t = Locked false v →
  _hashMap (shared c) !! key t = Some r →
  inv (mkConfig (<[i := goto t (Returning v r)]> (threads c))
                (locks c ∖ {[key t]}) (shared c)).
Proof.
  intros [He Hent Hown Hlocks Hholder Howned Honce Hleak Hthr] Hi Hpc Hr.
  assert (owns t = v) as Hot by (unfold owns; by rewrite Hpc).
  assert (holds t = Some (key t)) as Hht by (unfold holds; by rewrite Hpc).
  assert (∀ j x, <[i := goto t (Returning v r)]> (threads c) !! j = Some x →
     ∃ y, threads c !! j = Some y ∧ owns y = owns x ∧
          primType y = primType x ∧ appliedSchemas y = appliedSchemas x)
    as Hback.
  { intros j x Hj. pool Hj; [by exists t|by exists x]. }
  split; simpl.
  - done.
  - intros k v' Hk. destruct (Hent k v' Hk) as [? Hcase]. split; [done|].
    destruct v' as [a'|]; [done|].
    destruct Hcase as (j & tj & vp & Hj & Hpcj & Hkj).
    exists j, tj, vp. split; [|done].
    apply pool_lookup_other; [|done]. intros ->. congruence.
  - done.
  - intros k. rewrite elem_of_difference, elem_of_singleton, Hlocks. split.
    + intros [(j & y & Hj & Hy) Hk]. exists j, y. split; [|done].
      apply pool_lookup_other; [|done]. intros ->. congruence.
    + intros (j & x & Hj & Hx). pool Hj; [done|]. split; [by exists j, x|].
      intros ->. by destruct (Hholder i j t x (key t)).
  - intros j1 j2 x1 x2 k H1 H2 Hk1 Hk2. pool H1; [done|]. pool H2; [done|].
    by eapply Hholder.
  - intros j x a0 Hj Hx. destruct (Hback j x Hj) as (y & Hy & Hoy & <- & <-).
    rewrite <- Hoy in Hx. by apply (Howned j y a0 Hy Hx).
  - intros j1 j2 x1 x2 a0 H1 H2 Ha1 Ha2.
    destruct (Hback j1 x1 H1) as (y1 & ? & ? & _).
    destruct (Hback j2 x2 H2) as (y2 & ? & ? & _).
    eapply (Honce j1 j2 y1 y2 a0); congruence.
  - intros a0 Ha0. destruct (Hleak a0 Ha0) as [?|[?|(j & y & Hj & Hy)]];
      [by auto..|].
    right. right. destruct (decide (j = i)) as [->|Hji].
    + exists i, (goto t (Returning v r)).
      split; [by eapply pool_lookup_same|]. simplify_eq. done.
    + exists j, y. split; [|done]. by apply pool_lookup_other.
  - intros j x Hj. pool Hj; [|by eauto].
    specialize (Hthr i t Hi). unfold thread_ok in *. rewrite Hpc in Hthr.
    simpl. destruct Hthr as (? & a' & Ha').
    rewrite Hr in Ha'. injection Ha' as ->.
    split_and!; [done|by eexists|exact Hr].
Qed.

(** A thread destroys the descriptor its [unique_ptr] still owns and leaves
    the call, normally or by the exception. *)
Lemma inv_delete c i t a l :
  inv c → threads c !! i = Some t → owns t = Some a → holds t = None →
  owns (goto t l) = None → holds (goto t l) = None →
  thread_ok (shared c) (goto t l) →
  inv (mkConfig (<[i := goto t l]> (threads c)) (locks c)
                (mkState (delete a (objects (shared c)))
                         (S (avail (shared c)))
                         (_hashMap (shared c))
                         (_emptyPrimTypeInfo (shared c)))).
Proof.
  intros [He Hent Hown Hlocks Hholder Howned Honce Hleak Hthr]
    Hi Hot Hht Hot' Hht' Hok.
  destruct (Howned i t a Hi Hot) as (Hlive & Hnote & Hnotin).
  assert (∀ v, at_pc t ≠ Locked true v) as Hnl.
  { intros v Hpc. unfold holds in Hht. by rewrite Hpc in Hht. }
  split; simpl.
  - destruct He as (e & He & Hle). exists e. split; [done|].
    rewrite lookup_delete_ne; [done|]. congruence.
  - intros k v Hk. destruct (Hent k v Hk) as [? Hcase]. split; [done|].
    destruct v as [a'|].
    + destruct Hcase as (d & ? & ? & ?). exists d. split_and!; [|done..].
      rewrite lookup_delete_ne; [done|]. intros <-. by destruct (Hnotin k).
    + destruct Hcase as (j & tj & vp & Hj & Hpcj & Hkj).
      exists j, tj, vp. split; [|done].
      apply pool_lookup_other; [|done]. intros ->. simplify_eq.
      by destruct (Hnl vp).
  - done.
  - intros k. rewrite Hlocks. split.
    + intros (j & y & Hj & Hy). exists j, y. split; [|done].
      apply pool_lookup_other; [|done]. intros ->. congruence.
    + intros (j & x & Hj & Hx). pool Hj; [congruence|]. by exists j, x.
  - intros j1 j2 x1 x2 k H1 H2 Hk1 Hk2.
    pool H1; [congruence|]. pool H2; [congruence|]. by eapply Hholder.
  - intros j x a0 Hj Hx. pool Hj; [congruence|].
    destruct (Howned j x a0 Hj Hx) as (? & ? & ?). split_and!; [|done..].
    rewrite lookup_delete_ne; [done|]. intros <-.
    by destruct (Honce i j t x a).
  - intros j1 j2 x1 x2 a0 H1 H2 Ha1 Ha2.
    pool H1; [congruence|]. pool H2; [congruence|]. by eapply Honce.
  - intros a0. rewrite lookup_delete_is_Some. intros [Hne Ha0].
    destruct (Hleak a0 Ha0) as [?|[?|(j & y & Hj & Hy)]]; [by auto..|].
    right. right. exists j, y. split; [|done].
    apply pool_lookup_other; [|done]. intros ->. congruence.
  - intros j x Hj. pool Hj.
    + by apply (thread_ok_mono (shared c)).
    + apply (thread_ok_mono (shared c)); eauto.
Qed.

Lemma thread_ok_at c i t :
  inv c → threads c !! i = Some t → thread_ok (shared c) t.
Proof. intros Hinv Hi. by eapply inv_thread. Qed.

(** An entry whose element nobody holds owns an object. *)
Lemma free_entry_owns c k v :
  inv c → k ∉ locks c → _hashMap (shared c) !! k = Some v → is_Some v.
Proof.
  intros Hinv Hfree Hk. destruct v as [a|]; [by eexists|].
  destruct (inv_entry c Hinv k _ Hk) as [_ (j & tj & vp & Hj & Hpc & Hkj)].
  destruct Hfree. apply (inv_locks c Hinv). exists j, tj. split; [done|].
  unfold holds. rewrite Hpc. by f_equal.
Qed.

(** Every step of a thread keeps the invariant. *)
Lemma inv_schedule i c c' : inv c → schedule i c = Some c' → inv c'.
Proof.
  intros Hinv. unfold schedule.
  destruct (threads c !! i) as [t|] eqn:Hi; [simpl|done].
  pose proof (thread_ok_at c i t Hinv Hi) as Hok.
  unfold thread_step. unfold thread_ok in Hok.
  destruct (at_pc t) as [| |a|[] v|v r|v|r| |] eqn:Hpc; simpl; try done.
  - (* Start *)
    rewrite key_builder_cases.
    destruct (needs_buffer _ _ && bool_decide _).
    { intros [= <-]. apply inv_relabel; [done|done|by foot..|congruence|done]. }
    change (key_string (primType t) (appliedSchemas t)) with (key t).
    destruct (IsEmpty (key t)) eqn:He; simpl.
    { intros [= <-]. apply inv_relabel; [done|done|by foot..|congruence|].
      foot. by rewrite He. }
    destruct (decide (key t ∈ locks c)) as [|Hfree]; [done|].
    unfold Find, Tbb.find, bind, ret. simpl.
    destruct (_hashMap (shared c) !! key t) as [[a|]|] eqn:Hk; simpl;
      intros [= <-];
      (apply inv_relabel; [done|done|by foot..|congruence|]);
      foot; rewrite ?He; done.
  - (* Missed *)
    unfold new_Usd_PrimTypeInfo.
    destruct (avail (shared c)) as [|n]; simpl; intros [= <-].
    + apply inv_relabel; [done|done|by foot..|congruence|done].
    + by apply inv_new.
  - (* Built *)
    destruct (decide (key t ∈ locks c)) as [|Hfree]; [done|].
    unfold Tbb.insert.
    destruct (_hashMap (shared c) !! key t) as [v|] eqn:Hk.
    + intros [= <-].
      destruct (free_entry_owns c _ _ Hinv Hfree Hk) as [a' ->].
      rewrite <- (State_eta (shared c)) at 1.
      apply inv_lock; try done.
      * auto.
      * by exists a'.
    + destruct (avail (shared c)) as [|n]; simpl; intros [= <-].
      * apply inv_relabel; [done|done|by foot..|congruence|by foot].
      * apply inv_lock; try done.
        -- intros k a'. rewrite lookup_insert_Some. split.
           ++ by intros [[_ ?]|[_ ?]].
           ++ intros Hk'. right. split; [congruence|done].
        -- intros k Hk'. rewrite lookup_insert_ne; [done|]. congruence.
        -- intros k. rewrite lookup_insert_Some. intros [[<- _]|[_ ?]]; auto.
        -- by rewrite lookup_insert_eq.
  - (* Locked true *)
    destruct Hok as (He & Hk & [a ->]). unfold Tbb.assign. simpl.
    intros [= <-]. by apply inv_assign.
  - (* Locked false *)
    destruct Hok as (He & a' & Hk). unfold Tbb.get. simpl. rewrite Hk. simpl.
    intros [= <-]. by apply inv_release.
  - (* Returning *)
    destruct Hok as (He & Hr & Hk). destruct v as [a|]; simpl.
    + unfold delete_Usd_PrimTypeInfo.
      assert (owns t = Some a) as Hot by (by foot).
      destruct (inv_owned c Hinv i t a Hi Hot) as (-> & _). simpl.
      intros [= <-]. apply inv_delete; [done|done|done|by foot..|].
      foot. by rewrite He.
    + intros [= <-]. apply inv_relabel; [done|done|by foot..|congruence|].
      foot. by rewrite He.
  - (* Unwinding *)
    destruct v as [a|]; simpl.
    + unfold delete_Usd_PrimTypeInfo.
      assert (owns t = Some a) as Hot by (by foot).
      destruct (inv_owned c Hinv i t a Hi Hot) as (-> & _). simpl.
      intros [= <-]. apply inv_delete; [done|done|done|by foot..].
    + intros [= <-].
      apply inv_relabel; [done|done|by foot..|congruence|by foot].
Qed.

Lemma inv_with_avail n c :
  inv c → inv (mkConfig (threads c) (locks c) (with_avail n (shared c))).
Proof.
  intros [? ? ? ? ? ? ? ? ?]. by split.
Qed.

Lemma inv_step c c' : inv c → step c c' → inv c'.
Proof.
  intros Hinv Hs.
  destruct Hs; [by eapply inv_schedule|by apply inv_with_avail].
Qed.

Lemma inv_steps c c' : inv c → steps c c' → inv c'.
Proof. intros Hinv. induction 1; eauto using inv_step. Qed.

(** The callers enter on a state of the cache between calls. *)
Lemma inv_enter requests σ : wf σ → inv (enter requests σ).
Proof.
  intros [He Hent Hown Hleak].
  assert (∀ j x, threads (enter requests σ) !! j = Some x → at_pc x = Start)
    as Hstart.
  { intros j x. unfold enter. simpl. rewrite list_lookup_fmap.
    destruct (requests !! j); simpl; [|done]. by intros [= <-]. }
  split; simpl.
  - done.
  - intros k v Hk.
    destruct (Hent k v Hk) as (? & a & d & -> & ? & ? & ?). split; [done|].
    by exists d.
  - done.
  - intros k. split; [set_solver|].
    intros (j & x & Hj & Hx). apply Hstart in Hj.
    unfold holds in Hx. by rewrite Hj in Hx.
  - intros j1 j2 x1 x2 k Hj _ Hx. apply Hstart in Hj.
    unfold holds in Hx. by rewrite Hj in Hx.
  - intros j x a Hj Hx. apply Hstart in Hj.
    unfold owns in Hx. by rewrite Hj in Hx.
  - intros j1 j2 x1 x2 a Hj _ Hx. apply Hstart in Hj.
    unfold owns in Hx. by rewrite Hj in Hx.
  - intros a Ha. destruct (Hleak a Ha) as [?|?]; auto.
  - intros j x Hj. apply Hstart in Hj. unfold thread_ok. by rewrite Hj.
Qed.

(** *** Steps of a schedule are steps of the system *)

Lemma steps_run sched c : steps c (run sched c).
Proof.
  revert c. induction sched as [|i sched IH]; intros c; simpl.
  - apply rtc_refl.
  - destruct (schedule i c) as [c'|] eqn:Hs; simpl; [|apply IH].
    eapply rtc_l; [by eapply step_thread|apply IH].
Qed.

(** *** Entries are never removed or replaced *)

Lemma schedule_stable i c c' k a :
  inv c → schedule i c = Some c' →
  _hashMap (shared c) !! k = Some (Some a) →
  _hashMap (shared c') !! k = Some (Some a) ∧
  objects (shared c') !! a = objects (shared c) !! a.
Proof.
  intros Hinv Hs Hk. unfold schedule in Hs.
  destruct (threads c !! i) as [t|] eqn:Hi; [simpl in Hs|done].
  pose proof (thread_ok_at c i t Hinv Hi) as Hok.
  destruct (inv_entry c Hinv k _ Hk) as [_ (d & Hd & _)].
  unfold thread_step in Hs. unfold thread_ok in Hok.
  destruct (at_pc t) as [| |b|[] v|v r|v|r| |] eqn:Hpc; simpl in Hs; try done.
  - rewrite key_builder_cases in Hs.
    destruct (needs_buffer _ _ && bool_decide _); [by simplify_eq/=|].
    change (key_string (primType t) (appliedSchemas t)) with (key t) in Hs.
    destruct (IsEmpty (key t)); simpl in Hs; [by simplify_eq/=|].
    destruct (decide (key t ∈ locks c)); [done|].
    unfold Find, Tbb.find, bind, ret in Hs. simpl in Hs.
    by destruct (_hashMap (shared c) !! key t) as [[?|]|]; simplify_eq/=.
  - unfold new_Usd_PrimTypeInfo in Hs.
    destruct (avail (shared c)); simpl in Hs; simplify_eq/=; [done|].
    simpl. split; [done|]. rewrite lookup_insert_ne; [done|].
    pose proof (fresh_not_live (shared c)). congruence.
  - destruct (decide (key t ∈ locks c)); [done|].
    unfold Tbb.insert in Hs.
    destruct (_hashMap (shared c) !! key t) eqn:Hkt; [by simplify_eq/=|].
    destruct (avail (shared c)); simplify_eq/=; [done|].
    simpl. split; [|done]. rewrite lookup_insert_ne; [done|]. congruence.
  - destruct Hok as (_ & Hnull & _). unfold Tbb.assign in Hs. simplify_eq/=.
    simpl. split; [|done]. rewrite lookup_insert_ne; [done|]. congruence.
  - unfold Tbb.get in Hs. by simplify_eq/=.
  - destruct v as [b|]; simpl in Hs; [|by simplify_eq].
    unfold delete_Usd_PrimTypeInfo in Hs.
    assert (owns t = Some b) as Hot by (by foot).
    destruct (inv_owned c Hinv i t b Hi Hot) as (Hb & _ & Hnotin).
    rewrite Hb in Hs. simplify_eq/=. simpl. split; [done|].
    rewrite lookup_delete_ne; [done|]. intros <-. by destruct (Hnotin k).
  - destruct v as [b|]; simpl in Hs; [|by simplify_eq].
    unfold delete_Usd_PrimTypeInfo in Hs.
    assert (owns t = Some b) as Hot by (by foot).
    destruct (inv_owned c Hinv i t b Hi Hot) as (Hb & _ & Hnotin).
    rewrite Hb in Hs. simplify_eq/=. simpl. split; [done|].
    rewrite lookup_delete_ne; [done|]. intros <-. by destruct (Hnotin k).
Qed.

Lemma steps_stable c c' k a :
  inv c → steps c c' →
  _hashMap (shared c) !! k = Some (Some a) →
  _hashMap (shared c') !! k = Some (Some a) ∧
  objects (shared c') !! a = objects (shared c) !! a.
Proof.
  intros Hinv Hsteps. induction Hsteps as [c|c c1 c2 Hstep Hsteps IH].
  - done.
  - intros Hk. assert (_hashMap (shared c1) !! k = Some (Some a) ∧
                       objects (shared c1) !! a = objects (shared c) !! a)
      as [Hk1 Ho1].
    { destruct Hstep; [by eapply schedule_stable|done]. }
    destruct IH as [? ?]; [by eapply inv_step|done|]. split; congruence.
Qed.

(** *** Progress and termination *)

Lemma remaining_update ts i t t' :
  ts !! i = Some t →
  sum_list ((λ t, weight (at_pc t)) <$> <[i := t']> ts) + weight (at_pc t)
  = sum_list ((λ t, weight (at_pc t)) <$> ts) + weight (at_pc t').
Proof.
  revert i. induction ts as [|x ts IH]; intros [|i] Hi; simplify_eq/=.
  - lia.
  - specialize (IH i Hi). lia.
Qed.

Lemma thread_step_weight t L σ l L' σ' :
  thread_step t L σ = Some (l, L', σ') → weight l < weight (at_pc t).
Proof.
  unfold thread_step.
  destruct (at_pc t) as [| |b|[] v|v r|v|r| |]; simpl; try done.
  - destruct (_CreatePrimTypeInfoKey _ _ σ) as [[k| |] σ0];
      [|intros [= <- _ _]; simpl; lia..].
    destruct (IsEmpty k); [intros [= <- _ _]; simpl; lia|].
    destruct (decide (k ∈ L)); [done|].
    destruct (Find k σ0) as [[[?|]| |] ?]; intros [= <- _ _]; simpl; lia.
  - destruct (new_Usd_PrimTypeInfo _ _ σ) as [[?| |] ?];
      intros [= <- _ _]; simpl; lia.
  - destruct (decide (key t ∈ L)); [done|].
    destruct (Tbb.insert (key t) σ) as [[[]| |] ?];
      intros [= <- _ _]; simpl; lia.
  - intros [= <- _ _]. simpl. lia.
  - intros [= <- _ _]. simpl. lia.
  - destruct (unique_ptr_dtor v σ) as [[?| |] ?];
      intros [= <- _ _]; simpl; lia.
  - destruct (unique_ptr_dtor v σ) as [[?| |] ?];
      intros [= <- _ _]; simpl; lia.
Qed.

(** Every step of a thread uses up some of what remains. *)
Lemma schedule_decreases i c c' :
  schedule i c = Some c' → remaining c' < remaining c.
Proof.
  unfold schedule, remaining.
  destruct (threads c !! i) as [t|] eqn:Hi; [simpl|done].
  destruct (thread_step t (locks c) (shared c)) as [[[l L] σ]|] eqn:Hs;
    [simpl|done].
  intros [= <-]. simpl.
  pose proof (remaining_update (threads c) i t (goto t l) Hi) as Heq.
  pose proof (thread_step_weight _ _ _ _ _ _ Hs). simpl in Heq. lia.
Qed.

(** While a thread is still in the call, some thread can move. *)
Lemma progress c i t :
  inv c → threads c !! i = Some t → finished_pc (at_pc t) = false →
  ∃ j c', schedule j c = Some c'.
Proof.
  intros Hinv Hi Hfin.
  assert (∀ j x b v, threads c !! j = Some x → at_pc x = Locked b v →
            ∃ c', schedule j c = Some c') as Hlocked.
  { intros j x b v Hj Hpc. unfold schedule. rewrite Hj. simpl.
    unfold thread_step. rewrite Hpc. destruct b; simpl; by eexists. }
  assert (key t ∈ locks c → ∃ j c', schedule j c = Some c') as Hwait.
  { intros (j & x & Hj & Hx)%(inv_locks c Hinv). exists j.
    unfold holds in Hx. destruct (at_pc x) eqn:Hpc; try done. by eapply Hlocked. }
  destruct (decide (key t ∈ locks c)) as [|Hfree]; [by auto|].
  exists i. unfold schedule. rewrite Hi. simpl. unfold thread_step.
  destruct (at_pc t) as [| |b|[] v|v r|v|r| |]; simpl in *; try done.
  - rewrite key_builder_cases.
    destruct (needs_buffer _ _ && bool_decide _); [by eexists|].
    change (key_string (primType t) (appliedSchemas t)) with (key t).
    destruct (IsEmpty (key t)); simpl; [by eexists|].
    destruct (decide (key t ∈ locks c)); [done|].
    destruct (resume _ _ _). by eexists.
  - destruct (resume _ _ _). by eexists.
  - destruct (decide (key t ∈ locks c)); [done|].
    destruct (Tbb.insert (key t) (shared c)) as [[?| |] ?]; by eexists.
  - by eexists.
  - by eexists.
  - destruct (resume _ _ _). by eexists.
  - destruct (resume _ _ _). by eexists.
Qed.

(** *** A thread alone does what the call does *)

#[local] Arguments run : simpl never.
#[local] Arguments schedule : simpl never.

Lemma schedule_alone t L σ :
  schedule 0 (mkConfig [t] L σ) =
    '(l, L', σ') ← thread_step t L σ; Some (mkConfig [goto t l] L' σ').
Proof. done. Qed.

Lemma run_cons i sched c :
  run (i :: sched) c = run sched (default c (schedule i c)).
Proof. done. Qed.

Lemma run_finished sched t L σ :
  finished_pc (at_pc t) = true →
  run sched (mkConfig [t] L σ) = mkConfig [t] L σ.
Proof.
  intros Hfin. induction sched as [|i sched IH]; [done|].
  rewrite run_cons. destruct i as [|i]; [|done].
  rewrite schedule_alone. unfold thread_step.
  by destruct (at_pc t).
Qed.

#[local] Arguments _CreatePrimTypeInfoKey : simpl never.

(** One caller running alone through its steps ends where
    [FindOrCreatePrimTypeInfo] ends, with the same result and the same
    state, and no element held. *)
Lemma alone p s σ :
  wf σ →
  run [0; 0; 0; 0; 0; 0] (enter [(p, s)] σ) =
    mkConfig
      [mkThread p s (left_with (FindOrCreatePrimTypeInfo p s σ).1 Done)]
      ∅ (FindOrCreatePrimTypeInfo p s σ).2.
Proof.
  intros Hwf. unfold enter. simpl fmap.
  assert (∀ k : string, ({[k]} ∪ ∅ : gset string) ∖ {[k]} = ∅) as Hrel.
  { intros k. apply set_eq. intros x.
    rewrite elem_of_difference, elem_of_union, elem_of_singleton. split.
    - intros [[->|Hx] Hn]; [by destruct Hn|by apply elem_of_empty in Hx].
    - by intros ?%elem_of_empty. }
  assert ((needs_buffer p s = true ∧ avail σ = 0) ∨
          (needs_buffer p s = false ∨ 1 ≤ avail σ)) as [[Hb Ha]|Hroom].
  { destruct (needs_buffer p s); [|by auto].
    destruct (avail σ); [by left|right; right; lia]. }
  { rewrite call_key_bad_alloc by done. simpl.
    rewrite run_cons, schedule_alone. unfold thread_step. simpl.
    rewrite key_builder_throws by done. simpl. by rewrite run_finished. }
  destruct (call_cases p s σ Hwf)
    as [He Heq|a He Hk Heq|He Hk Hn Heq|Hb Ha Heq|n He Hk Hn Heq];
    rewrite Heq; simpl.
  - rewrite run_cons, schedule_alone. unfold thread_step. simpl.
    rewrite key_builder_returns by done. rewrite He. simpl. by rewrite run_finished.
  - rewrite run_cons, schedule_alone. unfold thread_step. simpl.
    rewrite key_builder_returns by done. rewrite He. rewrite decide_False by set_solver.
    unfold Find, Tbb.find, bind, ret. simpl. rewrite Hk. simpl.
    by rewrite run_finished.
  - rewrite run_cons, schedule_alone. unfold thread_step. simpl.
    rewrite key_builder_returns by done. rewrite He. rewrite decide_False by set_solver.
    unfold Find, Tbb.find, bind, ret. simpl. rewrite Hk. simpl.
    rewrite run_cons, schedule_alone. unfold thread_step, key. simpl.
    unfold new_Usd_PrimTypeInfo.
    destruct (avail σ) as [|[|n]] eqn:Ha; [| |lia]; simpl.
    { by rewrite run_finished. }
    rewrite run_cons, schedule_alone. unfold thread_step, key. simpl.
    rewrite decide_False by set_solver.
    unfold Tbb.insert. simpl. rewrite Hk. simpl.
    rewrite run_cons, schedule_alone. unfold thread_step, key. simpl.
    unfold delete_Usd_PrimTypeInfo. simpl. rewrite lookup_insert_eq. simpl.
    rewrite run_finished by done.
    rewrite delete_insert_id by apply fresh_not_live.
    rewrite <- Ha. by rewrite State_eta.
  - destruct Hroom; [congruence|lia].
  - rewrite run_cons, schedule_alone. unfold thread_step. simpl.
    rewrite key_builder_returns by done. rewrite He. rewrite decide_False by set_solver.
    unfold Find, Tbb.find, bind, ret. simpl. rewrite Hk. simpl.
    rewrite run_cons, schedule_alone. unfold thread_step, key. simpl.
    unfold new_Usd_PrimTypeInfo. rewrite Hn. simpl.
    rewrite run_cons, schedule_alone. unfold thread_step, key. simpl.
    rewrite decide_False by set_solver.
    unfold Tbb.insert. simpl. rewrite Hk. simpl.
    rewrite run_cons, schedule_alone. unfold thread_step, key. simpl.
    rewrite run_cons, schedule_alone. unfold thread_step, key. simpl.
    unfold Tbb.get. simpl. rewrite lookup_insert_eq. simpl.
    rewrite run_cons, schedule_alone. unfold thread_step, key. simpl.
    rewrite Hrel. unfold created. by rewrite insert_insert_eq.
Qed.

End pool.

(** * The properties of the specification *)

Section claims_sequential.

Implicit Types (σ : State) (p : string) (s : list string).

(** A call that returned had the key built. *)
Lemma call_ret_room p s σ r σ' :
  FindOrCreatePrimTypeInfo p s σ = (Ret r, σ') →
  needs_buffer p s = false ∨ 1 ≤ avail σ.
Proof.
  intros Hcall. destruct (needs_buffer p s) eqn:Hb; [|by left].
  destruct (avail σ) as [|n] eqn:Ha; [|right; lia].
  by rewrite call_key_bad_alloc in Hcall.
Qed.

(** On a state between calls, the live descriptors with a given non-empty
    key are one. *)
Lemma one_descriptor_per_key σ a1 a2 d1 d2 :
  wf σ →
  objects σ !! a1 = Some d1 → objects σ !! a2 = Some d2 →
  key_of d1 = key_of d2 → IsEmpty (key_of d1) = false → a1 = a2.
Proof.
  intros Hwf H1 H2 Hkey Hne.
  assert (∀ a d, objects σ !! a = Some d → IsEmpty (key_of d) = false →
                 _hashMap σ !! key_of d = Some (Some a)) as Hfiled.
  { intros a d Ha Hd.
    destruct (wf_no_leak _ Hwf a) as [Hemp|[k Hk]]; [by eexists| |].
    - destruct (wf_empty _ Hwf) as (e & Hptr & Hlive).
      rewrite Hptr in Hemp. injection Hemp as ->.
      rewrite Hlive in Ha. injection Ha as <-. done.
    - destruct (wf_entry _ Hwf _ _ Hk) as (_ & a' & d' & [= <-] & Hd' & <- & _).
      by simplify_eq. }
  pose proof (Hfiled a1 d1 H1 Hne) as Hk1.
  rewrite Hkey in Hne. pose proof (Hfiled a2 d2 H2 Hne) as Hk2.
  rewrite Hkey in Hk1. congruence.
Qed.

(** C1. Interning invariant and idempotence: once a call has returned a
    descriptor for a request, every later call with the same request,
    after any number of other calls, returns the identical address and
    leaves the state as it is, so that nothing is constructed; the one
    other way for it to end is the allocation failure that the
    specification sets apart, [std::bad_alloc] from building the key when
    the key needs a string buffer and the free store has no room, and then
    too the state is left as it is.  No entry of the table is ever removed
    or replaced, the live descriptors with a given non-empty key are one,
    and for a non-empty key the returned address is the entry of that
    key. *)
Theorem interning_idempotent σ σ1 σ2 p s r :
  reachable σ →
  FindOrCreatePrimTypeInfo p s σ = (Ret r, σ1) →
  evolves σ1 σ2 →
  (FindOrCreatePrimTypeInfo p s σ2 = (Ret r, σ2) ∨
   (FindOrCreatePrimTypeInfo p s σ2 = (bad_alloc, σ2) ∧
    needs_buffer p s = true ∧ avail σ2 = 0)) ∧
  (needs_buffer p s = false ∨ 1 ≤ avail σ2 →
   FindOrCreatePrimTypeInfo p s σ2 = (Ret r, σ2)) ∧
  (∀ k v, _hashMap σ1 !! k = Some v → _hashMap σ2 !! k = Some v) ∧
  (∀ a1 a2 d1 d2,
     objects σ2 !! a1 = Some d1 → objects σ2 !! a2 = Some d2 →
     key_of d1 = key_of d2 → IsEmpty (key_of d1) = false → a1 = a2) ∧
  (IsEmpty (key_string p s) = false →
   _hashMap σ2 !! key_string p s = Some r).
Proof.
  intros Hr Hcall Hev.
  pose proof (reachable_wf _ _ Hr) as Hwf.
  assert (wf σ1) as Hwf1.
  { pose proof (wf_call p s σ Hwf) as H. by rewrite Hcall in H. }
  pose proof (evolves_wf _ _ Hwf1 Hev) as Hwf2.
  pose proof (evolves_preserved _ _ Hwf1 Hev) as [Hent Hobj Hemp].
  destruct (call_returns _ _ _ _ _ Hwf Hcall) as [(a & d & -> & Hd & Hkey) Hcase].
  assert (needs_buffer p s = false ∨ 1 ≤ avail σ2 →
          FindOrCreatePrimTypeInfo p s σ2 = (Ret (Some a), σ2)) as Hroom.
  { intros Hroom. destruct (IsEmpty (key_string p s)) eqn:He.
    - destruct Hcase as [Hptr ->].
      rewrite call_empty_key by done. by rewrite Hemp, Hptr.
    - destruct Hcase as [Hk _]. apply call_hit; [done..|]. by apply Hent. }
  split_and!; [|done|done| |].
  - destruct (needs_buffer p s) eqn:Hb; [|by auto].
    destruct (avail σ2) as [|n] eqn:Ha; [|left; apply Hroom; right; lia].
    right. split; [|done]. by apply call_key_bad_alloc.
  - intros a1 a2 d1 d2. by apply one_descriptor_per_key.
  - intros He. rewrite He in Hcase. destruct Hcase as [Hk _]. by apply Hent.
Qed.

Lemma interning_idempotent_witness :
  ∃ a σ1,
    FindOrCreatePrimTypeInfo "Mesh" ["A"] (Usd_PrimTypeInfoCache 4)
      = (Ret (Some a), σ1) ∧
    let σ2 := (FindOrCreatePrimTypeInfo "Xform" [] σ1).2 in
    FindOrCreatePrimTypeInfo "Mesh" ["A"] σ2 = (Ret (Some a), σ2).
Proof.
  eexists _, _. split; [vm_compute; reflexivity|].
  intros σ2.
  refine (proj1 (proj2 (interning_idempotent (Usd_PrimTypeInfoCache 4) _ σ2
                          "Mesh" ["A"] _ _ _ _)) _).
  - apply reach_ctor.
  - vm_compute; reflexivity.
  - apply evolves_call, evolves_refl.
  - left. vm_compute; reflexivity.
Defined.

(** The allocation failure does occur: the request for the prim type Mesh
    with the applied schemas CollectionAPI and MaterialBindingAPI is served
    on a new cache; the free store then runs out; the same request, whose
    key of 37 characters needs a buffer, ends in [std::bad_alloc] although
    its descriptor is in the map. *)
Lemma repeated_request_bad_alloc :
  let p := "Mesh" in
  let s := ["CollectionAPI"; "MaterialBindingAPI"] in
  let σ := Usd_PrimTypeInfoCache 4 in
  let σ1 := (FindOrCreatePrimTypeInfo p s σ).2 in
  let σ2 := with_avail 0 σ1 in
  reachable σ ∧
  FindOrCreatePrimTypeInfo p s σ = (Ret (Some 2%positive), σ1) ∧
  evolves σ1 σ2 ∧
  FindOrCreatePrimTypeInfo p s σ2 ≠ (Ret (Some 2%positive), σ2) ∧
  FindOrCreatePrimTypeInfo p s σ2 = (bad_alloc, σ2).
Proof.
  intros p s σ σ1 σ2.
  assert (FindOrCreatePrimTypeInfo p s σ2 = (bad_alloc, σ2)) as Hthrow
    by (vm_compute; reflexivity).
  split_and!.
  - apply reach_ctor.
  - vm_compute; reflexivity.
  - apply evolves_avail, evolves_refl.
  - rewrite Hthrow. discriminate.
  - exact Hthrow.
Qed.

(** C2. Totality: on every state the cache goes through, a call either
    returns a non-null pointer to a live descriptor filed under the key of
    the request, or [std::bad_alloc] propagates with the state left as it
    was; it propagates only from building the key, when that needs a
    string buffer and the free store has no room, or on a miss with the
    free store unable to serve the object and the node; a null result and
    undefined behaviour do not occur, and with room for two allocations
    the call returns. *)
Theorem call_total σ p s :
  reachable σ →
  ((∃ a d σ',
      FindOrCreatePrimTypeInfo p s σ = (Ret (Some a), σ') ∧
      objects σ' !! a = Some d ∧
      key_of d = key_string p s) ∨
   (FindOrCreatePrimTypeInfo p s σ = (bad_alloc, σ) ∧
    ((needs_buffer p s = true ∧ avail σ = 0) ∨
     (avail σ < 2 ∧
      IsEmpty (key_string p s) = false ∧
      _hashMap σ !! key_string p s = None)))) ∧
  (2 ≤ avail σ →
   ∃ a σ', FindOrCreatePrimTypeInfo p s σ = (Ret (Some a), σ')).
Proof.
  intros Hr. pose proof (reachable_wf _ _ Hr) as Hwf. split.
  - destruct (call_cases p s σ Hwf)
      as [He Heq|a He Hk Heq|He Hk Hn Heq|Hb Ha Heq|n He Hk Hn Heq].
    + left. destruct (call_returns _ _ _ _ _ Hwf Heq)
        as [(a & d & Hptr & Hd & Hkey) _].
      exists a, d, σ. by rewrite Heq, Hptr.
    + left. destruct (call_returns _ _ _ _ _ Hwf Heq)
        as [(a' & d & [= <-] & Hd & Hkey) _].
      by exists a, d, σ.
    + right. split; [done|]. by right.
    + right. split; [done|]. by left.
    + left. destruct (call_returns _ _ _ _ _ Hwf Heq)
        as [(a' & d & [= <-] & Hd & Hkey) _].
      by eexists _, d, _.
  - intros Hn. destruct (call_succeeds p s σ Hwf Hn) as (a & σ' & Heq & _).
    by exists a, σ'.
Qed.

Lemma call_total_witness :
  ∃ a σ', FindOrCreatePrimTypeInfo "Mesh" ["A"; "B"] (Usd_PrimTypeInfoCache 2)
          = (Ret (Some a), σ').
Proof.
  refine (proj2 (call_total (Usd_PrimTypeInfoCache 2) "Mesh" ["A"; "B"] _) _).
  - apply reach_ctor.
  - simpl. lia.
Defined.

(** C3. Key builder reference definition: the key computed by the code is
    the key of the specification; without traits it is the prim type
    itself; with traits it is the prim type followed by every trait in
    order, each preceded by one separator, which is the prim type and the
    traits joined by the separator; and with an empty prim type it starts
    with the separator.  As for the call of [_CreatePrimTypeInfoKey]:
    without traits it returns the prim type on any state, building no
    string; whenever it returns, it returns the key of the specification
    and leaves the state as it was; and it returns whenever it needs no
    buffer or the free store has room for one. *)
Theorem key_reference p s :
  key_string p s = BuildKey p s ∧
  key_string p [] = p ∧
  (∀ t s',
    key_string p (t :: s') = p +:+ "," +:+ t +:+ separated s' ∧
    key_string p (t :: s') = String.concat "," (p :: t :: s') ∧
    key_string "" (t :: s') = String sep (t +:+ separated s')) ∧
  (∀ σ, _CreatePrimTypeInfoKey p [] σ = (Ret p, σ)) ∧
  (∀ σ k σ',
    _CreatePrimTypeInfoKey p s σ = (Ret k, σ') → k = BuildKey p s ∧ σ' = σ) ∧
  (∀ σ, needs_buffer p s = false ∨ 1 ≤ avail σ →
    _CreatePrimTypeInfoKey p s σ = (Ret (BuildKey p s), σ)).
Proof.
  split; [apply key_eq_BuildKey|]. split; [done|]. split_and!.
  - intros t s'. split; [by rewrite key_cons|]. split; [|by rewrite key_cons].
    rewrite key_cons. simpl. f_equal. f_equal.
    revert t. induction s' as [|t' s' IH]; intros t; simpl.
    + apply app_empty_r.
    + f_equal. f_equal. apply IH.
  - done.
  - intros σ k σ'. rewrite key_builder_cases, <- key_eq_BuildKey.
    destruct (needs_buffer p s && bool_decide (avail σ = 0)); [done|].
    by intros [= <- <-].
  - intros σ Hroom. rewrite <- key_eq_BuildKey. by apply key_builder_returns.
Qed.

(** C4. Empty-key short-circuit: on any state whatever, whatever the hash
    map holds, a call with an empty prim type and no traits returns what
    [GetEmptyPrimTypeInfo] returns and leaves the state as it is; and on
    every state the cache goes through, no entry of the map holds the empty
    prim type info, none is filed under the empty key, and [Find] never
    returns it. *)
Theorem empty_key_short_circuit σ :
  FindOrCreatePrimTypeInfo "" [] σ = GetEmptyPrimTypeInfo σ ∧
  (FindOrCreatePrimTypeInfo "" [] σ).2 = σ ∧
  (reachable σ →
   _hashMap σ !! "" = None ∧
   ∀ k, _hashMap σ !! k ≠ Some (_emptyPrimTypeInfo σ) ∧
        (Find k σ).1 ≠ Ret (_emptyPrimTypeInfo σ)).
Proof.
  split; [done|]. split; [done|].
  intros Hr. pose proof (reachable_wf _ _ Hr) as Hwf. split.
  - destruct (_hashMap σ !! "") as [v|] eqn:Hk; [|done].
    by destruct (wf_entry _ Hwf _ _ Hk) as [? _].
  - intros k. destruct (wf_empty _ Hwf) as (e & Hptr & _).
    unfold Find, Tbb.find, bind, ret.
    destruct (_hashMap σ !! k) as [v|] eqn:Hk; simpl.
    + destruct (wf_entry _ Hwf _ _ Hk) as (_ & a & d & -> & _ & _ & Hne).
      split; congruence.
    + rewrite Hptr. split; congruence.
Qed.

(** C6. Insert-if-absent frame condition: offered a live descriptor,
    [Insert] on a key that is mapped returns the entry that was there,
    leaves the whole map as it was and deletes the offered object; on a key
    that is not mapped, with room for the node, it returns the offered
    pointer, adds exactly that entry, every other key reading as before, and
    the object stays live, now owned by the map; without room for the node
    [std::bad_alloc] leaves the map as it was and the object is deleted. *)
Theorem Insert_frame σ key a d :
  objects σ !! a = Some d →
  match _hashMap σ !! key with
  | Some second =>
      Insert key (Some a) σ =
        (Ret second,
         mkState (delete a (objects σ)) (S (avail σ))
                 (_hashMap σ) (_emptyPrimTypeInfo σ))
  | None =>
      match avail σ with
      | S n =>
          Insert key (Some a) σ =
            (Ret (Some a),
             mkState (objects σ) n
                     (<[key := Some a]> (_hashMap σ)) (_emptyPrimTypeInfo σ)) ∧
          ∀ k, k ≠ key →
               <[key := Some a]> (_hashMap σ) !! k = _hashMap σ !! k
      | O =>
          Insert key (Some a) σ =
            (bad_alloc,
             mkState (delete a (objects σ)) 1
                     (_hashMap σ) (_emptyPrimTypeInfo σ))
      end
  end.
Proof.
  intros Ha.
  unfold Insert, on_unwind, Tbb.insert, bind, Tbb.assign, Tbb.get, ret,
    unique_ptr_dtor, delete_Usd_PrimTypeInfo.
  destruct (_hashMap σ !! key) as [second|] eqn:Hk; simpl.
  - by rewrite Hk, Ha.
  - destruct (avail σ) as [|n] eqn:Hn; simpl.
    + by rewrite Ha, Hn.
    + rewrite lookup_insert_eq, insert_insert_eq. simpl. split; [done|].
      intros k Hne. by rewrite lookup_insert_ne.
Qed.

Lemma Insert_frame_witness :
  let σ := mkState {[ 1%positive := EmptyPrimType;
                      2%positive := mkPrimTypeInfo "A" [];
                      3%positive := mkPrimTypeInfo "A" [] ]} 0
                   {[ "A" := Some 2%positive ]} (Some 1%positive) in
  Insert "A" (Some 3%positive) σ =
    (Ret (Some 2%positive),
     mkState (delete 3%positive (objects σ)) 1 (_hashMap σ) (Some 1%positive)).
Proof.
  intros σ.
  exact (Insert_frame σ "A" 3%positive (mkPrimTypeInfo "A" []) eq_refl).
Defined.

(** Two requests with different non-empty keys, made one after the other
    with room for both, get different objects, each the entry of its key. *)
Lemma two_calls_distinct σ p1 s1 p2 s2 :
  wf σ → 4 ≤ avail σ →
  IsEmpty (key_string p1 s1) = false →
  IsEmpty (key_string p2 s2) = false →
  key_string p1 s1 ≠ key_string p2 s2 →
  ∃ a1 a2 σ1 σ2,
    FindOrCreatePrimTypeInfo p1 s1 σ = (Ret (Some a1), σ1) ∧
    FindOrCreatePrimTypeInfo p2 s2 σ1 = (Ret (Some a2), σ2) ∧
    a1 ≠ a2 ∧ wf σ1 ∧ preserved σ1 σ2 ∧
    _emptyPrimTypeInfo σ ≠ Some a1 ∧ _emptyPrimTypeInfo σ ≠ Some a2 ∧
    _hashMap σ2 !! key_string p1 s1 = Some (Some a1) ∧
    _hashMap σ2 !! key_string p2 s2 = Some (Some a2).
Proof.
  intros Hwf Hn He1 He2 Hne.
  destruct (call_succeeds p1 s1 σ Hwf) as (a1 & σ1 & Hc1 & Hn1); [lia|].
  assert (wf σ1) as Hwf1.
  { pose proof (wf_call p1 s1 σ Hwf) as H. by rewrite Hc1 in H. }
  destruct (call_succeeds p2 s2 σ1 Hwf1) as (a2 & σ2 & Hc2 & _); [lia|].
  assert (wf σ2) as Hwf2.
  { pose proof (wf_call p2 s2 σ1 Hwf1) as H. by rewrite Hc2 in H. }
  pose proof (preserved_call p1 s1 σ Hwf) as Hp1. rewrite Hc1 in Hp1.
  pose proof (preserved_call p2 s2 σ1 Hwf1) as Hp2. rewrite Hc2 in Hp2.
  simpl in Hp1, Hp2.
  destruct (call_returns _ _ _ _ _ Hwf Hc1) as [_ Hk1].
  destruct (call_returns _ _ _ _ _ Hwf1 Hc2) as [_ Hk2].
  rewrite He1 in Hk1. rewrite He2 in Hk2.
  destruct Hk1 as [Hk1 Hne1], Hk2 as [Hk2 Hne2].
  apply (kept_entries _ _ Hp2) in Hk1.
  rewrite (kept_empty _ _ Hp1) in Hne2.
  exists a1, a2, σ1, σ2. split_and!; [done|done| |done..].
  intros ->. apply Hne. by eapply (wf_owner σ2 Hwf2).
Qed.

(** C7. Order sensitivity: two trait lists of more than one name that hold
    the same well-formed names in a different order give different keys
    for any base type; and on a cache that has only seen well-formed
    requests, with room for both, the two requests one after the other get
    two distinct descriptors, each storing its own trait sequence in the
    order given.  For the base type Mesh and the traits A, B against B, A
    this is the example of the specification. *)
Theorem order_sensitive p s1 s2 :
  Forall well_formed s1 → s1 ≡ₚ s2 → s1 ≠ s2 → 1 < length s1 →
  key_string p s1 ≠ key_string p s2 ∧
  ∀ σ, well_formed p → reachable_by well_formed_request σ → 4 ≤ avail σ →
    ∃ a1 a2 σ1 σ2,
      FindOrCreatePrimTypeInfo p s1 σ = (Ret (Some a1), σ1) ∧
      FindOrCreatePrimTypeInfo p s2 σ1 = (Ret (Some a2), σ2) ∧
      a1 ≠ a2 ∧
      objects σ2 !! a1 = Some (mkPrimTypeInfo p s1) ∧
      objects σ2 !! a2 = Some (mkPrimTypeInfo p s2).
Proof.
  intros Hs1 Hperm Hne Hlen.
  assert (Forall well_formed s2) as Hs2 by (by rewrite <- Hperm).
  assert (1 < length s2) as Hlen2 by (by rewrite <- Hperm).
  assert (key_string p s1 ≠ key_string p s2) as Hkeys.
  { rewrite !key_eq_BuildKey.
    destruct s1 as [|t1 s1]; [simpl in Hlen; lia|].
    destruct s2 as [|t2 s2]; [simpl in Hlen2; lia|].
    unfold BuildKey. intros Heq%app_inv_head_s.
    by apply separated_inj in Heq. }
  split; [done|]. intros σ Hp Hr Hn.
  pose proof (reachable_wf _ _ Hr) as Hwf.
  pose proof (reachable_faithful _ Hr) as Hf.
  assert (IsEmpty (key_string p s1) = false) as He1.
  { destruct s1; [simpl in Hlen; lia|]. rewrite key_cons. by destruct p. }
  assert (IsEmpty (key_string p s2) = false) as He2.
  { destruct s2; [simpl in Hlen2; lia|]. rewrite key_cons. by destruct p. }
  destruct (two_calls_distinct σ p s1 p s2 Hwf Hn He1 He2 Hkeys)
    as (a1 & a2 & σ1 & σ2 & Hc1 & Hc2 & Hdiff & Hwf1 & Hp2 & _).
  exists a1, a2, σ1, σ2. split_and!; [done..| |].
  - apply (kept_objects _ _ Hp2).
    by apply (call_returns_faithful p s1 σ a1 σ1).
  - apply (call_returns_faithful p s2 σ1 a2 σ2); [done| |done..].
    pose proof (faithful_call p s1 σ Hwf Hf (conj Hp Hs1)) as H.
    by rewrite Hc1 in H.
Qed.

Lemma order_sensitive_witness :
  key_string "Mesh" ["A"; "B"]
    ≠ key_string "Mesh" ["B"; "A"] ∧
  ∃ a1 a2 σ1 σ2,
    FindOrCreatePrimTypeInfo "Mesh" ["A"; "B"] (Usd_PrimTypeInfoCache 4)
      = (Ret (Some a1), σ1) ∧
    FindOrCreatePrimTypeInfo "Mesh" ["B"; "A"] σ1 = (Ret (Some a2), σ2) ∧
    a1 ≠ a2 ∧
    objects σ2 !! a1 = Some (mkPrimTypeInfo "Mesh" ["A"; "B"]) ∧
    objects σ2 !! a2 = Some (mkPrimTypeInfo "Mesh" ["B"; "A"]).
Proof.
  assert (Forall well_formed ["A"; "B"]) as Hs by (repeat constructor).
  assert (["A"; "B"] ≡ₚ ["B"; "A"]) as Hperm by apply Permutation_swap.
  assert (["A"; "B"] ≠ ["B"; "A"]) as Hne by discriminate.
  assert (1 < length ["A"; "B"]) as Hlen by (simpl; lia).
  destruct (order_sensitive "Mesh" ["A"; "B"] ["B"; "A"] Hs Hperm Hne Hlen)
    as [Hkeys Hcalls].
  split; [exact Hkeys|].
  apply Hcalls; [reflexivity|apply reach_ctor|simpl; lia].
Defined.

(** C8. Degenerate base type: on every state the cache goes through, with
    room for both, a request with an empty prim type and the single trait A
    returns a descriptor that is not the empty prim type info and is
    distinct from the one a request for the prim type A without traits
    gets; their keys are ",A" and "A". *)
Theorem degenerate_base_type σ :
  reachable σ → 4 ≤ avail σ →
  key_string "" ["A"] = ",A" ∧
  key_string "A" [] = "A" ∧
  ∃ a1 a2 σ1 σ2,
    FindOrCreatePrimTypeInfo "" ["A"] σ = (Ret (Some a1), σ1) ∧
    FindOrCreatePrimTypeInfo "A" [] σ1 = (Ret (Some a2), σ2) ∧
    a1 ≠ a2 ∧
    _emptyPrimTypeInfo σ ≠ Some a1 ∧
    _hashMap σ2 !! ",A" = Some (Some a1) ∧
    _hashMap σ2 !! "A" = Some (Some a2).
Proof.
  intros Hr Hn. pose proof (reachable_wf _ _ Hr) as Hwf.
  split; [done|]. split; [done|].
  destruct (two_calls_distinct σ "" ["A"] "A" [] Hwf Hn)
    as (a1 & a2 & σ1 & σ2 & Hc1 & Hc2 & Hdiff & _ & _ & Hne1 & _ & Hk1 & Hk2);
    [done..|].
  by exists a1, a2, σ1, σ2.
Qed.

Lemma degenerate_base_type_witness :
  ∃ a1 a2 σ1 σ2,
    FindOrCreatePrimTypeInfo "" ["A"] (Usd_PrimTypeInfoCache 4)
      = (Ret (Some a1), σ1) ∧
    FindOrCreatePrimTypeInfo "A" [] σ1 = (Ret (Some a2), σ2) ∧
    a1 ≠ a2.
Proof.
  destruct (degenerate_base_type (Usd_PrimTypeInfoCache 4))
    as (_ & _ & a1 & a2 & σ1 & σ2 & Hc1 & Hc2 & Hdiff & _).
  - apply reach_ctor.
  - simpl. lia.
  - by exists a1, a2, σ1, σ2.
Defined.

(** C9. Key determinism: the call of [_CreatePrimTypeInfoKey] has no
    effect on the state, the buffer it reserves being given back, also
    when it throws; two calls on equal requests that return, in any two
    runs, whatever the states of the free store, of the map and of the
    descriptors are, return equal keys; and the only way for it not to
    return is [std::bad_alloc] when the key needs a buffer and the free
    store has no room. *)
Theorem key_deterministic p1 s1 p2 s2 σ1 σ2 :
  p1 = p2 → s1 = s2 →
  (_CreatePrimTypeInfoKey p1 s1 σ1).2 = σ1 ∧
  (_CreatePrimTypeInfoKey p2 s2 σ2).2 = σ2 ∧
  (∀ k1 k2,
     (_CreatePrimTypeInfoKey p1 s1 σ1).1 = Ret k1 →
     (_CreatePrimTypeInfoKey p2 s2 σ2).1 = Ret k2 → k1 = k2) ∧
  ((∃ k, (_CreatePrimTypeInfoKey p1 s1 σ1).1 = Ret k) ∨
   ((_CreatePrimTypeInfoKey p1 s1 σ1).1 = bad_alloc ∧
    needs_buffer p1 s1 = true ∧ avail σ1 = 0)) ∧
  (needs_buffer p1 s1 = false ∨ 1 ≤ avail σ1 →
   ∃ k, (_CreatePrimTypeInfoKey p1 s1 σ1).1 = Ret k).
Proof.
  intros <- <-. rewrite !key_builder_cases. split_and!.
  - by destruct (needs_buffer p1 s1 && bool_decide (avail σ1 = 0)).
  - by destruct (needs_buffer p1 s1 && bool_decide (avail σ2 = 0)).
  - intros k1 k2.
    destruct (needs_buffer p1 s1 && bool_decide (avail σ1 = 0)); [done|].
    destruct (needs_buffer p1 s1 && bool_decide (avail σ2 = 0)); [done|].
    simpl. congruence.
  - destruct (needs_buffer p1 s1) eqn:Hb; simpl; [|left; by eexists].
    destruct (avail σ1) as [|n] eqn:Ha.
    + right. by rewrite bool_decide_true.
    + left. rewrite bool_decide_false by lia. by eexists.
  - intros [->|Hn]; simpl; [by eexists|].
    rewrite (bool_decide_false (avail σ1 = 0)) by lia.
    rewrite andb_false_r. by eexists.
Qed.

Lemma key_deterministic_witness :
  let p := "Mesh" in
  let s := ["CollectionAPI"; "MaterialBindingAPI"] in
  let σ1 := Usd_PrimTypeInfoCache 1 in
  let σ2 := (FindOrCreatePrimTypeInfo "Xform" [] (Usd_PrimTypeInfoCache 7)).2 in
  (_CreatePrimTypeInfoKey p s σ1).2 = σ1 ∧
  (_CreatePrimTypeInfoKey p s σ1).1
    = Ret "Mesh,CollectionAPI,MaterialBindingAPI" ∧
  (_CreatePrimTypeInfoKey p s σ2).1
    = Ret "Mesh,CollectionAPI,MaterialBindingAPI".
Proof.
  intros p s σ1 σ2.
  destruct (key_deterministic p s p s σ1 σ2 eq_refl eq_refl)
    as (Hs1 & _ & Hsame & _ & _).
  split; [exact Hs1|].
  assert ((_CreatePrimTypeInfoKey p s σ1).1
            = Ret "Mesh,CollectionAPI,MaterialBindingAPI") as H1
    by (vm_compute; reflexivity).
  split; [exact H1|].
  destruct (_CreatePrimTypeInfoKey p s σ2).1 as [k2| |] eqn:H2;
    [|vm_compute in H2; discriminate H2..].
  by rewrite (Hsame _ k2 H1 eq_refl).
Defined.

(** The capacity reserved for the key is the length of the key. *)
Lemma tokenSize_exact p t s :
  tokenSize p (t :: s) = String.length (key_string p (t :: s)).
Proof.
  rewrite key_eq_BuildKey. unfold tokenSize, BuildKey, size_of.
  rewrite app_length_s.
  assert (∀ l n, fold_left (λ tokenSize schemaType,
                    tokenSize + String.length schemaType) l n
                 = n + String.length (separated l) - length l) as Hfold.
  { induction l as [|x l IH]; intros n; simpl; [lia|].
    rewrite IH, app_length_s.
    assert (length l ≤ String.length (separated l)); [|lia].
    clear. induction l as [|y l IH]; simpl; [lia|].
    rewrite app_length_s. lia. }
  rewrite Hfold. lia.
Qed.

(** C10. The empty prim type info is returned exactly for the request with
    an empty prim type and no traits.  The key is empty exactly then, and
    with at least one trait, even an empty one, the separator occurs in
    the key.  On every state the cache goes through: the request with an
    empty prim type and no traits returns the empty prim type info and
    changes nothing; any other request never ends with the empty prim type
    info as its result; a call that returns returns the empty prim type
    info exactly when prim type and trait list are both empty, any other
    result being the entry of the key in the map; and with room for two
    allocations the call does return. *)
Theorem empty_path_iff p s σ :
  reachable σ →
  (IsEmpty (key_string p s) = true ↔ p = "" ∧ s = []) ∧
  (s ≠ [] → occurs sep (key_string p s) = true) ∧
  FindOrCreatePrimTypeInfo "" [] σ = (Ret (_emptyPrimTypeInfo σ), σ) ∧
  (¬ (p = "" ∧ s = []) →
   (FindOrCreatePrimTypeInfo p s σ).1 ≠ Ret (_emptyPrimTypeInfo σ)) ∧
  (∀ r σ',
    FindOrCreatePrimTypeInfo p s σ = (Ret r, σ') →
    (r = _emptyPrimTypeInfo σ ↔ p = "" ∧ s = []) ∧
    (¬ (p = "" ∧ s = []) → _hashMap σ' !! key_string p s = Some r)) ∧
  (2 ≤ avail σ →
   ∃ r σ',
     FindOrCreatePrimTypeInfo p s σ = (Ret r, σ') ∧
     (r = _emptyPrimTypeInfo σ ↔ p = "" ∧ s = []) ∧
     (¬ (p = "" ∧ s = []) → _hashMap σ' !! key_string p s = Some r)).
Proof.
  intros Hr. pose proof (reachable_wf _ _ Hr) as Hwf.
  assert (∀ r σ',
    FindOrCreatePrimTypeInfo p s σ = (Ret r, σ') →
    (r = _emptyPrimTypeInfo σ ↔ p = "" ∧ s = []) ∧
    (¬ (p = "" ∧ s = []) → _hashMap σ' !! key_string p s = Some r))
    as Hret.
  { intros r σ' Hcall.
    destruct (call_returns _ _ _ _ _ Hwf Hcall) as [_ H].
    pose proof (key_empty_iff p s) as Hiff.
    destruct (IsEmpty (key_string p s)).
    + destruct H as [-> _]. destruct Hiff as [Hiff _].
      split; [by split; auto|]. intros []. by apply Hiff.
    + destruct H as [Hk Hne]. split; [|done].
      split; [done|]. intros Hps. by apply Hiff in Hps. }
  split; [apply key_empty_iff|]. split_and!.
  - destruct s as [|t s]; [done|]. intros _.
    rewrite key_cons, occurs_app. simpl.
    destruct (decide (sep = sep)); [|done]. apply orb_true_r.
  - done.
  - intros Hne.
    destruct (FindOrCreatePrimTypeInfo p s σ) as [[r| |] σ'] eqn:Hcall;
      simpl; [|done..].
    intros [= ->]. destruct (Hret _ _ eq_refl) as [[Hboth _] _]. auto.
  - exact Hret.
  - intros Hn. destruct (call_succeeds p s σ Hwf Hn) as (a & σ' & Hcall & _).
    exists (Some a), σ'. split; [done|]. by apply Hret.
Qed.

Lemma empty_path_iff_witness :
  let σ := Usd_PrimTypeInfoCache 2 in
  FindOrCreatePrimTypeInfo "" [] σ = (Ret (_emptyPrimTypeInfo σ), σ) ∧
  ∃ r σ',
    FindOrCreatePrimTypeInfo "" [""] σ = (Ret r, σ') ∧
    r ≠ _emptyPrimTypeInfo σ ∧
    _hashMap σ' !! "," = Some r.
Proof.
  intros σ.
  destruct (empty_path_iff "" [""] σ (reach_ctor _ 2))
    as (_ & _ & Hempty & _ & _ & Hcall).
  split; [exact Hempty|].
  destruct Hcall as (r & σ' & Hc & Hiff & Hk); [simpl; lia|].
  exists r, σ'. split; [exact Hc|]. split.
  - intros Heq. apply Hiff in Heq as [_ Heq]. discriminate Heq.
  - apply Hk. intros [_ Heq]. discriminate Heq.
Defined.

End claims_sequential.

Section claims_concurrent.

Implicit Types (σ : State) (c : Config) (t : Thread).

(** C5. Per-key race resolution.  Callers enter together on a state of the
    cache and are interleaved in any way, the accessors of the hash map
    holding the element of their key.  At every point of every
    interleaving:
    - no caller has run into undefined behaviour, so no descriptor is
      destroyed twice;
    - a caller that has returned was returned a live descriptor filed
      under its key, which is the entry of that key in the map (the empty
      prim type info for the empty key);
    - callers of the same key that have returned were returned the same
      address;
    - a descriptor a caller still owns, a loser's among them, is live, is
      no entry of the map and is what no caller was returned, and a loser
      is about to return another address than its own descriptor's;
    - once all callers have left, every live descriptor other than the
      empty one is the entry of its key: one per key survives and the
      speculative ones that lost are destroyed;
    - an entry, once there, is there with its descriptor at every later
      point;
    - while some caller is still in the call some caller can move, and
      every move of a caller uses up some of a finite measure, so the
      callers make finitely many moves and all leave the call. *)
Theorem race_resolution requests σ c :
  reachable σ → steps (enter requests σ) c →
  (∀ i t, threads c !! i = Some t → at_pc t ≠ Crashed) ∧
  (∀ i t r, threads c !! i = Some t → at_pc t = Done r →
     ∃ a d, r = Some a ∧ objects (shared c) !! a = Some d ∧
            key_of d = key t ∧
            if IsEmpty (key t) then r = _emptyPrimTypeInfo (shared c)
            else _hashMap (shared c) !! key t = Some r) ∧
  (∀ i j ti tj ri rj,
     threads c !! i = Some ti → threads c !! j = Some tj →
     at_pc ti = Done ri → at_pc tj = Done rj → key ti = key tj → ri = rj) ∧
  (∀ i t a, threads c !! i = Some t → owns t = Some a →
     objects (shared c) !! a
       = Some (mkPrimTypeInfo (primType t) (appliedSchemas t)) ∧
     (∀ k, _hashMap (shared c) !! k ≠ Some (Some a)) ∧
     (∀ j tj rj, threads c !! j = Some tj → at_pc tj = Done rj →
                 rj ≠ Some a) ∧
     (∀ r, at_pc t = Returning (Some a) r → r ≠ Some a)) ∧
  (finished c →
   ∀ a d, objects (shared c) !! a = Some d →
     _emptyPrimTypeInfo (shared c) = Some a ∨
     _hashMap (shared c) !! key_of d = Some (Some a)) ∧
  (∀ c' k a, steps c c' →
     _hashMap (shared c) !! k = Some (Some a) →
     _hashMap (shared c') !! k = Some (Some a) ∧
     objects (shared c') !! a = objects (shared c) !! a) ∧
  (∀ i t, threads c !! i = Some t → finished_pc (at_pc t) = false →
     ∃ j c', schedule j c = Some c') ∧
  (∀ i c', schedule i c = Some c' → remaining c' < remaining c).
Proof.
  intros Hr Hsteps.
  assert (inv c) as Hinv.
  { eapply inv_steps; [|done]. apply inv_enter. by eapply reachable_wf. }
  assert (∀ i t r, threads c !! i = Some t → at_pc t = Done r →
            if IsEmpty (key t) then r = _emptyPrimTypeInfo (shared c)
            else is_Some r ∧ _hashMap (shared c) !! key t = Some r) as Hdone.
  { intros i t r Hi Hpc. pose proof (inv_thread c Hinv i t Hi) as Hok.
    unfold thread_ok in Hok. by rewrite Hpc in Hok. }
  split_and!.
  - intros i t Hi Hpc. pose proof (inv_thread c Hinv i t Hi) as Hok.
    unfold thread_ok in Hok. by rewrite Hpc in Hok.
  - intros i t r Hi Hpc. specialize (Hdone i t r Hi Hpc).
    destruct (IsEmpty (key t)) eqn:He.
    + destruct (inv_empty c Hinv) as (e & Hptr & Hlive).
      exists e, EmptyPrimType. split_and!; [congruence|done| |done].
      destruct (key t); [done|discriminate].
    + destruct Hdone as [[a ->] Hk].
      destruct (inv_entry c Hinv _ _ Hk) as [_ (d & ? & ? & _)].
      by exists a, d.
  - intros i j ti tj ri rj Hi Hj Hpci Hpcj Hkey.
    pose proof (Hdone i ti ri Hi Hpci) as H1.
    pose proof (Hdone j tj rj Hj Hpcj) as H2.
    rewrite <- Hkey in H2. destruct (IsEmpty (key ti)); [congruence|].
    destruct H1 as [_ H1], H2 as [_ H2]. congruence.
  - intros i t a Hi Ho.
    destruct (inv_owned c Hinv i t a Hi Ho) as (Hlive & Hne & Hnotin).
    split_and!; [done|done| |].
    + intros j tj rj Hj Hpcj ->. specialize (Hdone j tj _ Hj Hpcj).
      destruct (IsEmpty (key tj)); [done|].
      destruct Hdone as [_ Hk]. by destruct (Hnotin (key tj)).
    + intros r Hpc ->. pose proof (inv_thread c Hinv i t Hi) as Hok.
      unfold thread_ok in Hok. rewrite Hpc in Hok.
      destruct Hok as (_ & _ & Hk). by destruct (Hnotin (key t)).
  - intros Hfin a d Ha.
    destruct (inv_no_leak c Hinv a) as [?|[[k Hk]|(i & t & Hi & Ho)]];
      [by eexists|by left| |].
    + right. destruct (inv_entry c Hinv _ _ Hk) as [_ (d' & ? & <- & _)].
      by simplify_eq.
    + specialize (Hfin i t Hi). unfold owns in Ho.
      by destruct (at_pc t).
  - intros c' k a Hsteps' Hk. by apply steps_stable.
  - intros i t Hi Hfin. by eapply progress.
  - intros i c'. apply schedule_decreases.
Qed.

Lemma race_resolution_witness :
  let c := run [0; 1; 0; 1; 0; 1; 0; 0; 0; 1; 1; 1]
               (enter [("Mesh", ["A"]); ("Mesh", ["A"])]
                      (Usd_PrimTypeInfoCache 4)) in
  at_pc <$> threads c = [Done (Some 2%positive); Done (Some 2%positive)] ∧
  dom (objects (shared c)) = {[ 1%positive; 2%positive ]} ∧
  ∀ i t, threads c !! i = Some t → at_pc t ≠ Crashed.
Proof.
  intros c. split; [vm_compute; reflexivity|].
  split; [vm_compute; reflexivity|].
  exact (proj1 (race_resolution _ _ c (reach_ctor _ 4) (steps_run _ _))).
Defined.

End claims_concurrent.

(** * Further properties of the code *)

Section more_sequential.

Implicit Types (σ : State) (p : string) (s : list string).

(** X1. Insert and lookup round trip: whenever [Insert] returns, [Find] on
    the same key in the state it leaves returns the very pointer [Insert]
    returned and changes nothing, and [Find] on any other key returns what
    it returned before the [Insert]. *)
Theorem Find_after_Insert key valuePtr σ r σ' :
  Insert key valuePtr σ = (Ret r, σ') →
  Find key σ' = (Ret r, σ') ∧
  ∀ k, k ≠ key → (Find k σ').1 = (Find k σ).1.
Proof.
  unfold Insert, Find, on_unwind, Tbb.insert, Tbb.find, Tbb.assign, Tbb.get,
    bind, ret, unique_ptr_dtor, delete_Usd_PrimTypeInfo.
  destruct (_hashMap σ !! key) as [second|] eqn:Hk; simpl.
  - rewrite Hk. simpl. destruct valuePtr as [a|]; simpl.
    + destruct (objects σ !! a); simpl; [|intros ?; simplify_eq].
      intros [= <- <-]. simpl. rewrite Hk. split; [done|].
      intros k _. by destruct (_hashMap σ !! k).
    + intros [= <- <-]. rewrite Hk. split; [done|].
      intros k _. by destruct (_hashMap σ !! k).
  - destruct (avail σ) as [|n]; simpl.
    + destruct valuePtr as [a|]; simpl; [|intros ?; simplify_eq].
      destruct (objects σ !! a); intros ?; simplify_eq.
    + rewrite lookup_insert_eq. simpl. intros [= <- <-]. simpl.
      rewrite lookup_insert_eq. split; [done|].
      intros k Hne. rewrite insert_insert_eq, lookup_insert_ne by done.
      by destruct (_hashMap σ !! k).
Qed.

Lemma Find_after_Insert_witness :
  let σ := (new_Usd_PrimTypeInfo "A" [] (Usd_PrimTypeInfoCache 2)).2 in
  ∃ σ', Insert "A" (Some 2%positive) σ = (Ret (Some 2%positive), σ') ∧
        Find "A" σ' = (Ret (Some 2%positive), σ').
Proof.
  intros σ. eexists. split; [vm_compute; reflexivity|].
  refine (proj1 (Find_after_Insert "A" (Some 2%positive) σ _ _ _)).
  vm_compute; reflexivity.
Defined.

(** X2. A null result of [Find] means the key is absent: on every state
    the cache goes through, [Find] returns null exactly for the keys that
    have no entry, returns the entry's pointer otherwise, and never changes
    the state. *)
Theorem Find_null_iff_absent σ k :
  reachable σ →
  (Find k σ).2 = σ ∧
  ((Find k σ).1 = Ret nullptr ↔ _hashMap σ !! k = None) ∧
  (∀ a, (Find k σ).1 = Ret (Some a) ↔ _hashMap σ !! k = Some (Some a)).
Proof.
  intros Hr. pose proof (reachable_wf _ _ Hr) as Hwf.
  unfold Find, Tbb.find, bind, ret.
  destruct (_hashMap σ !! k) as [v|] eqn:Hk; simpl.
  - destruct (wf_entry _ Hwf _ _ Hk) as (_ & a & d & -> & _).
    split; [done|]. split; [by split|].
    intros a'. split; congruence.
  - split; [done|]. split; [done|]. intros a. by split.
Qed.

Lemma Find_null_iff_absent_witness :
  (Find "Mesh" (Usd_PrimTypeInfoCache 0)).1 = Ret nullptr.
Proof.
  apply (proj1 (proj2 (Find_null_iff_absent (Usd_PrimTypeInfoCache 0) "Mesh"
                         (reach_ctor _ 0)))).
  reflexivity.
Defined.

(** X3. The key determines a well-formed request: when no identifier
    contains the separator, two requests have the same key exactly when
    they have the same prim type and the same applied schemas in the same
    order. *)
Theorem key_eq_iff p1 s1 p2 s2 :
  well_formed_request p1 s1 → well_formed_request p2 s2 →
  (key_string p1 s1 = key_string p2 s2 ↔
   p1 = p2 ∧ s1 = s2).
Proof.
  intros [Hp1 Hs1] [Hp2 Hs2]. split.
  - by apply key_inj.
  - by intros [-> ->].
Qed.

Lemma key_eq_iff_witness :
  key_string "Mesh" ["A"] ≠ key_string "MeshA" [].
Proof.
  assert (well_formed_request "Mesh" ["A"]) as H1
    by (split; [reflexivity|repeat constructor]).
  assert (well_formed_request "MeshA" []) as H2
    by (split; [reflexivity|constructor]).
  intros Heq. apply (key_eq_iff _ _ _ _ H1 H2) in Heq as [Heq _].
  discriminate Heq.
Defined.

(** X4. Identifiers are not checked for the separator: a request whose
    first applied schema is moved into the prim type behind a separator has
    the same key, so once one of the two has been served the other is
    returned the same descriptor, with the state unchanged, unless building
    its key ends in [std::bad_alloc], which happens only when that key
    needs a buffer and the free store has no room. *)
Theorem key_collision p t s :
  key_string p (t :: s)
    = key_string (p +:+ "," +:+ t) s ∧
  ∀ σ r σ',
    reachable σ →
    FindOrCreatePrimTypeInfo p (t :: s) σ = (Ret r, σ') →
    (FindOrCreatePrimTypeInfo (p +:+ "," +:+ t) s σ' = (Ret r, σ') ∨
     (FindOrCreatePrimTypeInfo (p +:+ "," +:+ t) s σ' = (bad_alloc, σ') ∧
      needs_buffer (p +:+ "," +:+ t) s = true ∧ avail σ' = 0)) ∧
    (needs_buffer (p +:+ "," +:+ t) s = false ∨ 1 ≤ avail σ' →
     FindOrCreatePrimTypeInfo (p +:+ "," +:+ t) s σ' = (Ret r, σ')).
Proof.
  assert (key_string p (t :: s)
            = key_string (p +:+ "," +:+ t) s) as Hkey.
  { rewrite !key_eq_BuildKey. destruct s as [|t' s]; simpl.
    - by rewrite app_empty_r.
    - by rewrite !app_assoc_s. }
  split; [done|]. intros σ r σ' Hr Hcall.
  pose proof (reachable_wf _ _ Hr) as Hwf.
  assert (IsEmpty (key_string p (t :: s)) = false) as He.
  { rewrite key_cons. by destruct p. }
  destruct (call_returns _ _ _ _ _ Hwf Hcall) as [(a & d & -> & _) Hent].
  rewrite He in Hent. destruct Hent as [Hk _].
  assert (needs_buffer (p +:+ "," +:+ t) s = false ∨ 1 ≤ avail σ' →
          FindOrCreatePrimTypeInfo (p +:+ "," +:+ t) s σ'
            = (Ret (Some a), σ')) as Hroom.
  { intros Hroom. apply call_hit; [done|by rewrite <- Hkey..]. }
  split; [|done].
  destruct (needs_buffer (p +:+ "," +:+ t) s) eqn:Hb; [|by auto].
  destruct (avail σ') as [|n] eqn:Ha; [|left; apply Hroom; right; lia].
  right. split; [|done]. by apply call_key_bad_alloc.
Qed.

(** X5. The capacity reserved for the key is exact: for a non-empty list
    of applied schemas, the size computed before [reserve] is the length of
    the key that the appends build. *)
Theorem reserve_exact p s :
  s ≠ [] → tokenSize p s = String.length (key_string p s).
Proof.
  destruct s as [|t s]; [done|]. intros _.
  rewrite key_eq_BuildKey. unfold tokenSize, BuildKey, size_of.
  rewrite app_length_s.
  assert (∀ l, length l ≤ String.length (separated l)) as Hsep.
  { induction l as [|y l IH]; simpl; [lia|]. rewrite app_length_s. lia. }
  assert (∀ l n, fold_left (λ tokenSize schemaType,
                    tokenSize + String.length schemaType) l n
                 = n + String.length (separated l) - length l) as Hfold.
  { induction l as [|x l IH]; intros n; simpl; [lia|].
    rewrite IH, app_length_s. specialize (Hsep l). lia. }
  rewrite Hfold. specialize (Hsep (t :: s)). lia.
Qed.

Lemma reserve_exact_witness :
  tokenSize "Mesh" ["A"; "BC"] = 9.
Proof.
  rewrite (reserve_exact "Mesh" ["A"; "BC"]); [reflexivity|discriminate].
Defined.

Lemma run_calls_cons r rest σ :
  run_calls (r :: rest) σ =
    ((FindOrCreatePrimTypeInfo r.1 r.2 σ).1
       :: (run_calls rest (FindOrCreatePrimTypeInfo r.1 r.2 σ).2).1,
     (run_calls rest (FindOrCreatePrimTypeInfo r.1 r.2 σ).2).2).
Proof.
  simpl. destruct (FindOrCreatePrimTypeInfo r.1 r.2 σ) as [o σ']. simpl.
  by destruct (run_calls rest σ').
Qed.

Lemma run_calls_reachable P requests σ :
  reachable_by P σ → Forall (λ r, P r.1 r.2) requests →
  reachable_by P (run_calls requests σ).2.
Proof.
  intros Hr Hall. revert σ Hr.
  induction Hall as [|r rest Hp Hall IH]; intros σ Hr; [done|].
  rewrite run_calls_cons. simpl. apply IH. by apply reach_call.
Qed.

(** X6. One live descriptor per entry: on every state the cache goes
    through, the live descriptors are as many as the entries of the map
    plus the empty prim type info, so calls that hit, return the empty prim
    type info or throw leave nothing behind. *)
Theorem live_objects_count σ :
  reachable_by any_request σ → size (objects σ) = S (size (_hashMap σ)).
Proof.
  induction 1 as [n|σ p s Hr IH _|σ n Hr IH]; simpl.
  - by rewrite map_size_singleton, map_size_empty.
  - destruct (call_cases p s σ (reachable_wf _ _ Hr))
      as [? ->|? ? ? ->|? ? ? ->|? ? ->|? ? Hk ? ->]; simpl; [done..|].
    rewrite !map_size_insert_None; [by rewrite IH|done|].
    apply fresh_not_live.
  - done.
Qed.

Lemma live_objects_count_witness :
  let σ := (run_calls [("Mesh", ["A"]); ("Mesh", ["A"]); ("", []);
                       ("Xform", [])] (Usd_PrimTypeInfoCache 3)).2 in
  size (objects σ) = S (size (_hashMap σ)).
Proof.
  intros σ. apply live_objects_count.
  apply run_calls_reachable; [apply reach_ctor|].
  by apply Forall_forall.
Defined.

(** X7. A returned pointer stays valid: the descriptor a call returned is
    live with the same contents after any number of later calls, whatever
    they request and however they end. *)
Theorem returned_pointer_stays_valid σ p s a σ1 d σ2 :
  reachable σ →
  FindOrCreatePrimTypeInfo p s σ = (Ret (Some a), σ1) →
  objects σ1 !! a = Some d →
  evolves σ1 σ2 →
  objects σ2 !! a = Some d.
Proof.
  intros Hr Hcall Hd Hev.
  assert (wf σ1) as Hwf1.
  { pose proof (wf_call p s σ (reachable_wf _ _ Hr)) as H.
    by rewrite Hcall in H. }
  by apply (kept_objects _ _ (evolves_preserved _ _ Hwf1 Hev)).
Qed.

Lemma returned_pointer_stays_valid_witness :
  let σ1 := (FindOrCreatePrimTypeInfo "Mesh" ["A"] (Usd_PrimTypeInfoCache 2)).2 in
  let σ2 := (FindOrCreatePrimTypeInfo "Xform" [] σ1).2 in
  objects σ2 !! 2%positive = Some (mkPrimTypeInfo "Mesh" ["A"]).
Proof.
  intros σ1 σ2.
  refine (returned_pointer_stays_valid (Usd_PrimTypeInfoCache 2)
            "Mesh" ["A"] 2%positive σ1 _ σ2 (reach_ctor _ 2) _ _ _).
  - vm_compute; reflexivity.
  - vm_compute; reflexivity.
  - apply evolves_call, evolves_refl.
Defined.

(** X8. Pointer equality is key equality: two calls that return, with any
    number of other calls in between, return the same address exactly when
    their requests have the same key. *)
Theorem same_pointer_iff_same_key σ p1 s1 r1 σ1 σ1' p2 s2 r2 σ2 :
  reachable σ →
  FindOrCreatePrimTypeInfo p1 s1 σ = (Ret r1, σ1) →
  evolves σ1 σ1' →
  FindOrCreatePrimTypeInfo p2 s2 σ1' = (Ret r2, σ2) →
  (r1 = r2 ↔ key_string p1 s1 = key_string p2 s2).
Proof.
  intros Hr Hc1 Hev Hc2.
  pose proof (reachable_wf _ _ Hr) as Hwf.
  assert (wf σ1) as Hwf1.
  { pose proof (wf_call p1 s1 σ Hwf) as H. by rewrite Hc1 in H. }
  pose proof (evolves_wf _ _ Hwf1 Hev) as Hwf1'.
  assert (wf σ2) as Hwf2.
  { pose proof (wf_call p2 s2 σ1' Hwf1') as H. by rewrite Hc2 in H. }
  pose proof (preserved_call p1 s1 σ Hwf) as Hp1. rewrite Hc1 in Hp1.
  pose proof (evolves_preserved _ _ Hwf1 Hev) as Hp1'.
  pose proof (preserved_call p2 s2 σ1' Hwf1') as Hp2. rewrite Hc2 in Hp2.
  simpl in Hp1, Hp2.
  assert (_emptyPrimTypeInfo σ2 = _emptyPrimTypeInfo σ) as Hemp.
  { rewrite (kept_empty _ _ Hp2), (kept_empty _ _ Hp1').
    apply (kept_empty _ _ Hp1). }
  destruct (call_returns _ _ _ _ _ Hwf Hc1) as [(a1 & d1 & -> & _) H1].
  destruct (call_returns _ _ _ _ _ Hwf1' Hc2) as [(a2 & d2 & -> & _) H2].
  rewrite (kept_empty _ _ Hp1'), (kept_empty _ _ Hp1) in H2.
  assert (∀ k a, _hashMap σ2 !! k = Some (Some a) →
                 _emptyPrimTypeInfo σ ≠ Some a) as Hnote.
  { intros k a Hk. rewrite <- Hemp.
    by destruct (wf_entry _ Hwf2 _ _ Hk) as (_ & ? & ? & [= <-] & _ & _ & ?). }
  destruct (IsEmpty (key_string p1 s1)) eqn:He1;
    destruct (IsEmpty (key_string p2 s2)) eqn:He2.
  - destruct H1 as [-> _], H2 as [-> _]. split; [intros _|done].
    destruct (key_string p1 s1); [|done].
    by destruct (key_string p2 s2).
  - destruct H1 as [H1 _], H2 as [H2 _]. split.
    + intros [= <-]. by destruct (Hnote _ _ H2).
    + intros Heq. rewrite Heq in He1. congruence.
  - destruct H1 as [H1 _], H2 as [H2 _].
    apply (kept_entries _ _ Hp1'), (kept_entries _ _ Hp2) in H1. split.
    + intros [= <-]. by destruct (Hnote _ _ H1).
    + intros Heq. rewrite Heq in He1. congruence.
  - destruct H1 as [H1 _], H2 as [H2 _].
    apply (kept_entries _ _ Hp1'), (kept_entries _ _ Hp2) in H1. split.
    + intros [= <-]. by apply (wf_owner _ Hwf2 _ _ a1).
    + intros Heq. rewrite Heq in H1. congruence.
Qed.

Lemma same_pointer_iff_same_key_witness :
  let σ1 := (FindOrCreatePrimTypeInfo "A" ["B"] (Usd_PrimTypeInfoCache 4)).2 in
  let σ2 := (FindOrCreatePrimTypeInfo "Mesh" [] σ1).2 in
  Some 2%positive = Some 3%positive ↔
  key_string "A" ["B"] = key_string "Mesh" [].
Proof.
  intros σ1 σ2.
  refine (same_pointer_iff_same_key (Usd_PrimTypeInfoCache 4)
            "A" ["B"] (Some 2%positive) σ1 σ1
            "Mesh" [] (Some 3%positive) σ2
            (reach_ctor _ 4) _ (evolves_refl σ1) _).
  - vm_compute; reflexivity.
  - vm_compute; reflexivity.
Defined.

(** X9. The empty prim type info is fixed at construction: on every state
    the cache goes through, [GetEmptyPrimTypeInfo] returns the non-null
    address the constructor stored, that of the static empty prim type,
    which is live and has no type name and no applied schemas, and it
    leaves the state as it is. *)
Theorem empty_prim_type_info_fixed σ :
  reachable σ →
  GetEmptyPrimTypeInfo σ = (Ret (Some GetEmptyPrimType), σ) ∧
  objects σ !! GetEmptyPrimType = Some EmptyPrimType.
Proof.
  unfold GetEmptyPrimTypeInfo.
  induction 1 as [n|σ p s Hr [IH1 IH2] _|σ n Hr [IH1 IH2]]; simpl.
  - by rewrite lookup_singleton_eq.
  - destruct (preserved_call p s σ (reachable_wf _ _ Hr)) as [_ Hobj Hemp].
    injection IH1 as IH1. rewrite Hemp, IH1. split; [done|]. by apply Hobj.
  - injection IH1 as IH1. by rewrite IH1.
Qed.

Lemma empty_prim_type_info_fixed_witness :
  let σ := (FindOrCreatePrimTypeInfo "Mesh" ["A"] (Usd_PrimTypeInfoCache 2)).2 in
  GetEmptyPrimTypeInfo σ = (Ret (Some GetEmptyPrimType), σ).
Proof.
  intros σ. refine (proj1 (empty_prim_type_info_fixed σ _)).
  apply reach_call; [apply reach_ctor|exact I].
Defined.

Lemma keys_requested_cons r rest :
  keys_requested (r :: rest) =
    (if IsEmpty (request_key r) then ∅ else {[request_key r]})
      ∪ keys_requested rest.
Proof.
  unfold keys_requested. rewrite fmap_cons, filter_cons.
  destruct (IsEmpty (request_key r)) eqn:He.
  - rewrite decide_False by congruence. by rewrite (left_id_L ∅ (∪)).
  - rewrite decide_True by done. done.
Qed.

(** With room for an object and a node, a call returns and the keys of the
    map are those it had and the key of the request, unless that is
    empty. *)
Lemma call_domain p s σ :
  wf σ → 2 ≤ avail σ →
  ∃ a σ',
    FindOrCreatePrimTypeInfo p s σ = (Ret (Some a), σ') ∧
    avail σ ≤ avail σ' + 2 ∧
    dom (_hashMap σ') =
      (if IsEmpty (key_string p s) then ∅
       else {[key_string p s]}) ∪ dom (_hashMap σ).
Proof.
  intros Hwf Hn.
  destruct (call_cases p s σ Hwf)
    as [He Heq|a He Hk Heq|He Hk Hn' Heq|Hb Ha Heq|n He Hk Hn' Heq];
    [| |lia|lia|]; rewrite He.
  - destruct (wf_empty _ Hwf) as (e & Hptr & _).
    exists e, σ. rewrite Heq, Hptr. split_and!; [done|lia|].
    by rewrite (left_id_L ∅ (∪)).
  - exists a, σ. split_and!; [done|lia|].
    apply elem_of_dom_2 in Hk. symmetry. apply subseteq_union_1_L.
    by apply singleton_subseteq_l.
  - eexists _, _. split_and!; [done|unfold created; simpl; lia|].
    unfold created. simpl. by rewrite dom_insert_L.
Qed.

(** X10. The entries are the keys that were requested: requests served one
    after the other, with room for two allocations each, all return a
    non-null pointer, and the keys of the map afterwards are the keys it
    had before together with the non-empty keys of the requests, however
    often each was requested. *)
Theorem entries_are_requested_keys requests σ :
  reachable σ → 2 * length requests ≤ avail σ →
  Forall (λ o, ∃ a, o = Ret (Some a)) (run_calls requests σ).1 ∧
  length (run_calls requests σ).1 = length requests ∧
  dom (_hashMap (run_calls requests σ).2)
    = keys_requested requests ∪ dom (_hashMap σ).
Proof.
  intros Hr. pose proof (reachable_wf _ _ Hr) as Hwf. clear Hr.
  revert σ Hwf. induction requests as [|r rest IH]; intros σ Hwf Hn.
  - simpl. split_and!; [done..|].
    unfold keys_requested. simpl. by rewrite (left_id_L ∅ (∪)).
  - rewrite run_calls_cons, keys_requested_cons. simpl in *.
    destruct (call_domain r.1 r.2 σ Hwf) as (a & σ' & Hcall & Hav & Hdom);
      [lia|].
    assert (wf σ') as Hwf'.
    { pose proof (wf_call r.1 r.2 σ Hwf) as H. by rewrite Hcall in H. }
    rewrite Hcall. simpl.
    destruct (IH σ' Hwf') as (Hall & Hlen & Hdom'); [lia|].
    split_and!.
    + constructor; [by exists a|done].
    + by rewrite Hlen.
    + rewrite Hdom', Hdom. unfold request_key.
      rewrite (assoc_L (∪)). f_equal. apply (comm_L (∪)).
Qed.

Lemma entries_are_requested_keys_witness :
  dom (_hashMap (run_calls [("Mesh", ["A"]); ("", []); ("Mesh", ["A"]);
                            ("Xform", [])]
                   (Usd_PrimTypeInfoCache 8)).2)
    = {[ "Mesh,A"; "Xform" ]}.
Proof.
  rewrite (proj2 (proj2 (entries_are_requested_keys
             [("Mesh", ["A"]); ("", []); ("Mesh", ["A"]); ("Xform", [])]
             (Usd_PrimTypeInfoCache 8) (reach_ctor _ 8)
             ltac:(simpl; lia)))).
  vm_compute. reflexivity.
Defined.

(** X11. The descriptor returned was built from the request: on a cache
    that has only seen requests whose identifiers are free of the
    separator, a call with such a request that returns returns a live
    descriptor whose prim type and applied schemas are those of the
    request, in the order given, whether it was created by this call, found
    in the map, or is the empty prim type info. *)
Theorem returned_descriptor_is_request σ p s a σ' :
  reachable_by well_formed_request σ → well_formed_request p s →
  FindOrCreatePrimTypeInfo p s σ = (Ret (Some a), σ') →
  objects σ' !! a = Some (mkPrimTypeInfo p s).
Proof.
  intros Hr Hps Hcall.
  pose proof (reachable_wf _ _ Hr) as Hwf.
  destruct (IsEmpty (key_string p s)) eqn:He.
  - apply key_empty_iff in He as He'. destruct He' as [-> ->].
    destruct (call_returns _ _ _ _ _ Hwf Hcall) as [_ Hcase].
    simpl in Hcase. destruct Hcase as [Hptr ->].
    destruct (wf_empty _ Hwf) as (e & He' & Hlive).
    unfold EmptyPrimType in Hlive. congruence.
  - eapply call_returns_faithful; [done| |done..].
    by apply reachable_faithful.
Qed.

Lemma returned_descriptor_is_request_witness :
  let σ' := (FindOrCreatePrimTypeInfo "Mesh" ["B"; "A"]
               (Usd_PrimTypeInfoCache 2)).2 in
  objects σ' !! 2%positive = Some (mkPrimTypeInfo "Mesh" ["B"; "A"]).
Proof.
  intros σ'.
  refine (returned_descriptor_is_request (Usd_PrimTypeInfoCache 2)
            "Mesh" ["B"; "A"] 2%positive σ' (reach_ctor _ 2) _ _).
  - split; [reflexivity|repeat constructor].
  - vm_compute; reflexivity.
Defined.

End more_sequential.

Section more_concurrent.

Implicit Types (σ : State) (c : Config) (t : Thread).

Lemma sum_update (f : Thread → nat) (ts : list Thread) i t t' :
  ts !! i = Some t →
  sum_list (f <$> <[i := t']> ts) + f t = sum_list (f <$> ts) + f t'.
Proof.
  revert i. induction ts as [|x ts IH]; intros [|i] Hi; simplify_eq/=.
  - lia.
  - specialize (IH i Hi). lia.
Qed.

Lemma size_delete_live {A} (m : gmap positive A) b d :
  m !! b = Some d → size m = S (size (delete b m)).
Proof.
  intros Hb. rewrite <- (insert_delete_id m b d Hb) at 1.
  rewrite map_size_insert_None; [done|apply lookup_delete_eq].
Qed.

(** The descriptors that came to live since [σ] are the new nodes of the
    map and those in flight. *)
Definition accounted (σ : State) (c : Config) : Prop :=
  size (objects (shared c)) + size (_hashMap σ)
  = size (objects σ) + size (_hashMap (shared c)) + in_flight c.

Lemma accounted_schedule σ i c c' :
  inv c → accounted σ c → schedule i c = Some c' → accounted σ c'.
Proof.
  intros Hinv Hacc Hs. unfold schedule in Hs.
  destruct (threads c !! i) as [t|] eqn:Hi; [simpl in Hs|done].
  pose proof (thread_ok_at c i t Hinv Hi) as Hok.
  assert (∀ l, in_flight (mkConfig (<[i := goto t l]> (threads c))
                                   (locks c) (shared c))
               + speculative (at_pc t) = in_flight c + speculative l) as Hfl.
  { intros l.
    apply (sum_update (λ t, speculative (at_pc t)) _ i t (goto t l) Hi). }
  unfold accounted, in_flight in *. simpl in Hfl.
  unfold thread_step in Hs. unfold thread_ok in Hok.
  destruct (at_pc t) as [| |b|[] v|v r|v|r| |] eqn:Hpc; simpl in Hs; try done.
  - rewrite key_builder_cases in Hs.
    destruct (needs_buffer _ _ && bool_decide _).
    { simplify_eq/=. specialize (Hfl Thrown). simpl in Hfl. lia. }
    change (key_string (primType t) (appliedSchemas t)) with (key t) in Hs.
    destruct (IsEmpty (key t)); simpl in Hs.
    { simplify_eq/=. specialize (Hfl (Done (_emptyPrimTypeInfo (shared c)))).
      simpl in Hfl. lia. }
    destruct (decide (key t ∈ locks c)); [done|].
    unfold Find, Tbb.find, bind, ret in Hs. simpl in Hs.
    destruct (_hashMap (shared c) !! key t) as [[a|]|]; simplify_eq/=.
    + specialize (Hfl (Done (Some a))). simpl in Hfl. lia.
    + specialize (Hfl Missed). simpl in Hfl. lia.
    + specialize (Hfl Missed). simpl in Hfl. lia.
  - unfold new_Usd_PrimTypeInfo in Hs.
    destruct (avail (shared c)); simpl in Hs; simplify_eq/=.
    + specialize (Hfl Thrown). simpl in Hfl. lia.
    + rewrite map_size_insert_None by apply fresh_not_live.
      specialize (Hfl (Built (fresh (dom (objects (shared c)))))).
      simpl in Hfl. lia.
  - destruct (decide (key t ∈ locks c)); [done|].
    unfold Tbb.insert in Hs.
    destruct (_hashMap (shared c) !! key t) eqn:Hkt; simplify_eq/=.
    { specialize (Hfl (Locked false (Some b))). simpl in Hfl. lia. }
    destruct (avail (shared c)); simplify_eq/=.
    + specialize (Hfl (Unwinding (Some b))). simpl in Hfl. lia.
    + rewrite map_size_insert_None by done.
      specialize (Hfl (Locked true (Some b))). simpl in Hfl. lia.
  - destruct Hok as (_ & Hnull & [a ->]). unfold Tbb.assign in Hs.
    simplify_eq/=. rewrite map_size_insert_Some by (by eexists).
    specialize (Hfl (Locked false None)). simpl in Hfl. lia.
  - unfold Tbb.get in Hs. simplify_eq/=.
    specialize (Hfl (Returning v
                       (default None (_hashMap (shared c) !! key t)))).
    simpl in Hfl. lia.
  - destruct v as [b|]; simpl in Hs.
    + unfold delete_Usd_PrimTypeInfo in Hs.
      assert (owns t = Some b) as Hot by (unfold owns; by rewrite Hpc).
      destruct (inv_owned c Hinv i t b Hi Hot) as (Hb & _).
      rewrite Hb in Hs. simplify_eq/=.
      pose proof (size_delete_live _ _ _ Hb) as Hsz.
      specialize (Hfl (Done r)). simpl in Hfl. lia.
    + simplify_eq/=. specialize (Hfl (Done r)). simpl in Hfl. lia.
  - destruct v as [b|]; simpl in Hs.
    + unfold delete_Usd_PrimTypeInfo in Hs.
      assert (owns t = Some b) as Hot by (unfold owns; by rewrite Hpc).
      destruct (inv_owned c Hinv i t b Hi Hot) as (Hb & _).
      rewrite Hb in Hs. simplify_eq/=.
      pose proof (size_delete_live _ _ _ Hb) as Hsz.
      specialize (Hfl Thrown). simpl in Hfl. lia.
    + simplify_eq/=. specialize (Hfl Thrown). simpl in Hfl. lia.
Qed.

Lemma accounted_steps σ c c' :
  inv c → accounted σ c → steps c c' → accounted σ c'.
Proof.
  intros Hinv Hacc Hsteps.
  induction Hsteps as [c|c c1 c2 Hstep Hsteps IH]; [done|].
  apply IH; [by eapply inv_step|].
  destruct Hstep; [by eapply accounted_schedule|done].
Qed.

Lemma in_flight_enter requests σ : in_flight (enter requests σ) = 0.
Proof.
  unfold in_flight, enter. simpl.
  induction requests as [|r requests IH]; [done|].
  rewrite !fmap_cons. simpl. exact IH.
Qed.

Lemma in_flight_bound c : in_flight c ≤ length (threads c).
Proof.
  unfold in_flight. induction (threads c) as [|t ts IH]; [simpl; lia|].
  rewrite fmap_cons, length_cons. cbn [sum_list sum_list_with].
  assert (speculative (at_pc t) ≤ 1) as Hone.
  { destruct (at_pc t) as [| |?|[] [?|]|[?|] ?|[?|]|?| |]; simpl; lia. }
  exact (Nat.add_le_mono _ 1 _ _ Hone IH).
Qed.

Lemma in_flight_finished c : finished c → in_flight c = 0.
Proof.
  unfold finished, in_flight. generalize (threads c). clear c.
  induction l as [|t ts IH]; intros Hfin; [done|].
  rewrite fmap_cons.
  assert (sum_list ((λ t, speculative (at_pc t)) <$> ts) = 0) as Hts.
  { apply IH. intros i x Hi. by apply (Hfin (S i)). }
  assert (speculative (at_pc t) = 0) as Ht.
  { specialize (Hfin 0 t eq_refl). by destruct (at_pc t). }
  change (speculative (at_pc t)
          + sum_list ((λ t, speculative (at_pc t)) <$> ts) = 0).
  by rewrite Hts, Ht.
Qed.

(** X12. Speculative construction is bounded and cleaned up: at every
    point of every interleaving, the descriptors that have come to live
    since the callers entered are exactly the nodes the map has gained and
    the descriptors still held by callers outside the map, of which there
    is at most one per caller; once all callers have left, the live
    descriptors have grown by exactly the number of new entries. *)
Theorem speculation_accounted requests σ c :
  reachable σ → steps (enter requests σ) c →
  size (objects (shared c)) + size (_hashMap σ)
    = size (objects σ) + size (_hashMap (shared c)) + in_flight c ∧
  in_flight c ≤ length (threads c) ∧
  (finished c →
   size (objects (shared c)) + size (_hashMap σ)
     = size (objects σ) + size (_hashMap (shared c))).
Proof.
  intros Hr Hsteps.
  assert (accounted σ c) as Hacc.
  { eapply accounted_steps; [|  |done].
    - apply inv_enter. by eapply reachable_wf.
    - unfold accounted. rewrite in_flight_enter. simpl. lia. }
  split_and!; [done|apply in_flight_bound|].
  intros Hfin. unfold accounted in Hacc.
  rewrite (in_flight_finished c Hfin) in Hacc. lia.
Qed.

Lemma speculation_accounted_witness :
  let σ := Usd_PrimTypeInfoCache 4 in
  let c := run [0; 1; 0; 1; 0]
               (enter [("Mesh", ["A"]); ("Mesh", ["A"])] σ) in
  in_flight c = 1 ∧
  size (objects (shared c)) + size (_hashMap σ)
    = size (objects σ) + size (_hashMap (shared c)) + in_flight c.
Proof.
  intros σ c. split; [vm_compute; reflexivity|].
  exact (proj1 (speculation_accounted _ σ c (reach_ctor _ 4)
                  (steps_run _ _))).
Defined.

End more_concurrent.
